(** * toypack: the dependency-graph builder and bundle generator

    A shallow embedding of [src/bin/lib/Compiler.js] (class [Compiler]) and of
    the runtime loader that [emitFile] writes into the bundle, with the
    properties the specification states about them.

    Layout: the data model and the functions of the source first (modules
    [Js], [Ast], [Posix], [Compiler], [Runtime], [Demo]), then the theorems. *)

From Stdlib Require Import ZArith Ascii String.
From stdpp Require Import base tactics option list strings gmap relations.

Set Warnings "-register-all,-clear-no-such-hyp".
Local Open Scope string_scope.

(** ** Results of JavaScript computations *)

Module Js.

(** The exceptions the modelled code can raise. *)
Inductive error : Type :=
| TypeError                      (* a property of undefined, a non-string path *)
| ReferenceError                 (* an identifier that is not in scope *)
| SyntaxError                    (* babylon.parse on malformed source *)
| ENOENT (path : string)         (* fs.readFileSync on a missing file *)
| MODULE_NOT_FOUND (request : string). (* require of a loader that is not installed *)

(** A call returns, throws, or is still recursing when the fuel (the depth
    of the JavaScript call stack) is spent.  Node reports a stack that is
    exhausted as a RangeError; the model keeps that outcome apart from the
    exceptions that the code and its libraries raise. *)
Inductive outcome (A : Type) : Type :=
| Ok (a : A)
| Throw (e : error)
| Diverge.

Arguments Ok {A} a.
Arguments Throw {A} e.
Arguments Diverge {A}.

Definition bind {A B : Type} (m : outcome A) (k : A -> outcome B) : outcome B :=
  match m with
  | Ok a => k a
  | Throw e => Throw e
  | Diverge => Diverge
  end.

#[global] Instance outcome_ret : MRet outcome := fun _ a => Ok a.
#[global] Instance outcome_bind : MBind outcome := fun _ _ k m => bind m k.

(** [Array.prototype.forEach] with a callback that mutates shared state [S]:
    the elements are visited left to right and an exception aborts the loop. *)
Fixpoint forEach {A S : Type} (l : list A) (f : A -> S -> outcome S) (s : S) : outcome S :=
  match l with
  | [] => Ok s
  | x :: l' => s' ← f x s; forEach l' f s'
  end.

(** A JavaScript object used as a map from string keys to values.  Own
    string keys that are not array indices are enumerated in the order of their
    first insertion, and assigning to an existing key keeps its place.  Every
    key of the module graph starts with ./ and so is never an array index. *)
Definition object (V : Type) : Type := list (string * V).

Fixpoint set {V : Type} (k : string) (v : V) (o : object V) : object V :=
  match o with
  | [] => [(k, v)]
  | (k', v') :: o' => if String.eqb k' k then (k, v) :: o' else (k', v') :: set k v o'
  end.

Fixpoint get {V : Type} (k : string) (o : object V) : option V :=
  match o with
  | [] => None
  | (k', v') :: o' => if String.eqb k' k then Some v' else get k o'
  end.

(** [Object.keys] *)
Definition keys {V : Type} (o : object V) : list string := map fst o.

(** The double quote character, and a string in double quotes. *)
Definition dq : string := String (ascii_of_nat 34) EmptyString.
Definition quoted (s : string) : string := dq ++ s ++ dq.

End Js.

Import Js.

(** ** Syntax trees *)

Module Ast.

(** The part of the Babel syntax tree that the visitor of [parse] can tell
    apart.  [Other ty children] stands for a node of any other type [ty] (a
    Program, a statement, a member expression, a numeric or template literal,
    ...) with its child nodes in the order of Babel's visitor keys; such a node
    has no [name] and no string [value].  The visitor keys of a CallExpression
    are the callee, then the arguments. *)
Inductive node : Type :=
| Identifier (name : string)
| StringLiteral (value : string)
| CallExpression (callee : node) (arguments : list node)
| Other (type : string) (children : list node).

(** Child [i] of a node, in traversal order. *)
Definition child (n : node) (i : nat) : option node :=
  match n with
  | CallExpression callee arguments => (callee :: arguments) !! i
  | Other _ children => children !! i
  | _ => None
  end.

(** The node at a position (the child indices from the root down). *)
Fixpoint subterm (n : node) (p : list nat) : option node :=
  match p with
  | [] => Some n
  | i :: p' => match child n i with Some c => subterm c p' | None => None end
  end.

(** [node.callee.name === "require"] *)
Definition callee_is_require (callee : node) : bool :=
  match callee with
  | Identifier name => String.eqb name "require"
  | _ => false
  end.

Definition is_require_call (n : node) : bool :=
  match n with
  | CallExpression callee _ => callee_is_require callee
  | _ => false
  end.

(** The traversal reaches position [p] of [n]: no node strictly above [p] is
    a call of the bare identifier require (the visitor replaces the arguments
    of such a call before Babel descends into them). *)
Fixpoint reached (n : node) (p : list nat) : bool :=
  match p with
  | [] => true
  | i :: p' =>
      negb (is_require_call n) &&
      match child n i with Some c => reached c p' | None => false end
  end.

(** Induction on syntax trees, with the property for all children. *)
Section Induction.

Variable Q : node -> Prop.
Hypothesis Q_Identifier : forall name, Q (Identifier name).
Hypothesis Q_StringLiteral : forall value, Q (StringLiteral value).
Hypothesis Q_CallExpression :
  forall callee arguments, Q callee -> Forall Q arguments -> Q (CallExpression callee arguments).
Hypothesis Q_Other : forall type children, Forall Q children -> Q (Other type children).

Fixpoint node_induction (n : node) : Q n :=
  let all :=
    fix all (l : list node) : Forall Q l :=
      match l with
      | [] => @List.Forall_nil node Q
      | x :: l' => @List.Forall_cons node Q x l' (node_induction x) (all l')
      end in
  match n with
  | Identifier name => Q_Identifier name
  | StringLiteral value => Q_StringLiteral value
  | CallExpression callee arguments =>
      Q_CallExpression callee arguments (node_induction callee) (all arguments)
  | Other type children => Q_Other type children (all children)
  end.

End Induction.

(** The positions of a tree in the order of a pre-order, left-to-right
    walk: a node first, then its children from the first to the last. *)
Fixpoint positions (n : node) : list (list nat) :=
  let below :=
    fix below (i : nat) (l : list node) : list (list nat) :=
      match l with
      | [] => []
      | c :: l' => (map (cons i) (positions c) ++ below (S i) l')%list
      end in
  [] ::
  match n with
  | CallExpression callee arguments => below 0 (callee :: arguments)
  | Other _ children => below 0 children
  | _ => []
  end.

(** The positions below the children [l], the first of which is child [i]. *)
Fixpoint positions_below (i : nat) (l : list node) : list (list nat) :=
  match l with
  | [] => []
  | c :: l' => (map (cons i) (positions c) ++ positions_below (S i) l')%list
  end.

(** The module name at position [p] of [n], when the traversal reaches [p]
    and finds a call of require with a string literal first. *)
Definition require_at (n : node) (p : list nat) : option string :=
  if reached n p then
    match subterm n p with
    | Some (CallExpression callee (StringLiteral x :: _)) =>
        if callee_is_require callee then Some x else None
    | _ => None
    end
  else None.

(** The module names of the calls of require that the traversal rewrites, in
    pre-order, left to right, one entry for each call. *)
Definition required_in_order (n : node) : list string :=
  omap (require_at n) (positions n).

(** The same list by recursion on the tree. *)
Fixpoint required (n : node) : list string :=
  let required_all :=
    fix required_all (l : list node) : list string :=
      match l with
      | [] => []
      | c :: l' => (required c ++ required_all l')%list
      end in
  match n with
  | CallExpression callee arguments =>
      if callee_is_require callee then
        match arguments with
        | StringLiteral x :: _ => [x]
        | _ => []
        end
      else (required callee ++ required_all arguments)%list
  | Other _ children => required_all children
  | _ => []
  end.

Fixpoint required_all (l : list node) : list string :=
  match l with
  | [] => []
  | c :: l' => (required c ++ required_all l')%list
  end.

(** Every call of require that the traversal enters has a string literal
    as its first argument. *)
Fixpoint supported (n : node) : bool :=
  let supported_all :=
    fix supported_all (l : list node) : bool :=
      match l with
      | [] => true
      | c :: l' => supported c && supported_all l'
      end in
  match n with
  | CallExpression callee arguments =>
      if callee_is_require callee then
        match arguments with
        | StringLiteral _ :: _ => true
        | _ => false
        end
      else supported callee && supported_all arguments
  | Other _ children => supported_all children
  | _ => true
  end.

Fixpoint supported_all (l : list node) : bool :=
  match l with
  | [] => true
  | c :: l' => supported c && supported_all l'
  end.

(** The tree has no call of the bare identifier require, at any depth. *)
Fixpoint no_require (n : node) : bool :=
  let no_require_all :=
    fix no_require_all (l : list node) : bool :=
      match l with
      | [] => true
      | c :: l' => no_require c && no_require_all l'
      end in
  match n with
  | CallExpression callee arguments =>
      negb (callee_is_require callee) && no_require callee && no_require_all arguments
  | Other _ children => no_require_all children
  | _ => true
  end.

Fixpoint no_require_all (l : list node) : bool :=
  match l with
  | [] => true
  | c :: l' => no_require c && no_require_all l'
  end.

End Ast.

Import Ast.

(** ** Node's [path] module on a POSIX host

    [path] is part of the platform, not of the repository: the compiler is
    written against the five functions of [Compiler.path_api] below.  This
    module is the POSIX implementation of Node.js, used to run the compiler on
    concrete inputs. *)

Module Posix.

Definition slash : ascii := ascii_of_nat 47.
Definition dot : ascii := ascii_of_nat 46.

Definition chars (s : string) : list ascii := list_ascii_of_string s.
Definition str (l : list ascii) : string := string_of_list_ascii l.

Definition is_slash (c : ascii) : bool := Ascii.eqb c slash.
Definition not_slash (c : ascii) : bool := negb (is_slash c).

Fixpoint drop_while {A : Type} (f : A -> bool) (l : list A) : list A :=
  match l with
  | [] => []
  | x :: l' => if f x then drop_while f l' else l
  end.

Fixpoint take_while {A : Type} (f : A -> bool) (l : list A) : list A :=
  match l with
  | [] => []
  | x :: l' => if f x then x :: take_while f l' else []
  end.

(** The segments of a path between its slashes. *)
Fixpoint segments (l : list ascii) : list (list ascii) :=
  match l with
  | [] => [[]]
  | c :: l' =>
      if is_slash c then [] :: segments l'
      else match segments l' with
           | [] => [[c]]
           | w :: ws => (c :: w) :: ws
           end
  end.

Fixpoint unsegments (ws : list (list ascii)) : list ascii :=
  match ws with
  | [] => []
  | [w] => w
  | w :: ws' => (w ++ slash :: unsegments ws')%list
  end.

Definition is_dotdot (w : list ascii) : bool :=
  match w with
  | [a; b] => Ascii.eqb a dot && Ascii.eqb b dot
  | _ => false
  end.

Definition is_dot (w : list ascii) : bool :=
  match w with
  | [a] => Ascii.eqb a dot
  | _ => false
  end.

(** [normalizeString]: resolves the . and .. segments; [res] is the result so
    far, last segment first. *)
Fixpoint normalizeString (ws : list (list ascii)) (allowAboveRoot : bool)
    (res : list (list ascii)) : list (list ascii) :=
  match ws with
  | [] => rev res
  | w :: ws' =>
      match w with
      | [] => normalizeString ws' allowAboveRoot res
      | _ =>
          if is_dot w then normalizeString ws' allowAboveRoot res
          else if is_dotdot w then
            match res with
            | last :: res' =>
                if is_dotdot last
                then normalizeString ws' allowAboveRoot
                       (if allowAboveRoot then w :: res else res)
                else normalizeString ws' allowAboveRoot res'
            | [] => normalizeString ws' allowAboveRoot
                      (if allowAboveRoot then [w] else [])
            end
          else normalizeString ws' allowAboveRoot (w :: res)
      end
  end.

Definition isAbsolute (l : list ascii) : bool :=
  match l with
  | c :: _ => is_slash c
  | [] => false
  end.

Definition ends_with_slash (l : list ascii) : bool :=
  match rev l with
  | c :: _ => is_slash c
  | [] => false
  end.

(** [path.normalize] *)
Definition normalize_chars (l : list ascii) : list ascii :=
  match l with
  | [] => [dot]
  | _ =>
      let abs := isAbsolute l in
      let trailing := ends_with_slash l in
      let p := unsegments (normalizeString (segments l) (negb abs) []) in
      match p with
      | [] => if abs then [slash] else if trailing then [dot; slash] else [dot]
      | _ =>
          let p := if trailing then (p ++ [slash])%list else p in
          if abs then slash :: p else p
      end
  end.

(** [path.join(a, b)] *)
Definition join (a b : string) : string :=
  match chars a, chars b with
  | [], [] => str [dot]
  | [], lb => str (normalize_chars lb)
  | la, [] => str (normalize_chars la)
  | la, lb => str (normalize_chars (la ++ slash :: lb)%list)
  end.

(** [path.resolve(a, b)] in a process whose working directory is [cwd]
    (an absolute path): the arguments are taken from the right until one is
    absolute. *)
Definition resolve_chars (cwd : list ascii) (a b : list ascii) : list ascii :=
  let prepend (p acc : list ascii) : list ascii :=
    match p with [] => acc | _ => (p ++ slash :: acc)%list end in
  let r0 := prepend b [] in
  let r1 := if isAbsolute r0 then r0 else prepend a r0 in
  let r2 := if isAbsolute r1 then r1 else prepend cwd r1 in
  slash :: unsegments (normalizeString (segments r2) false []).

Definition resolve (cwd : string) (a b : string) : string :=
  str (resolve_chars (chars cwd) (chars a) (chars b)).

Fixpoint strip_common (f t : list (list ascii)) : list (list ascii) * list (list ascii) :=
  match f, t with
  | x :: f', y :: t' =>
      if bool_decide (x = y) then strip_common f' t' else (f, t)
  | _, _ => (f, t)
  end.

(** [path.relative(from, to)]: both are resolved, the common leading
    segments dropped, and one .. written for each segment left of [from]. *)
Definition relative (cwd : string) (from to : string) : string :=
  let f := normalizeString (segments (resolve_chars (chars cwd) [] (chars from))) false [] in
  let t := normalizeString (segments (resolve_chars (chars cwd) [] (chars to))) false [] in
  let '(f', t') := strip_common f t in
  str (unsegments (map (fun _ => [dot; dot]) f' ++ t')%list).

(** [path.dirname]: the trailing slashes and the last segment are cut off;
    the first character is never looked at. *)
Definition dirname (p : string) : string :=
  match chars p with
  | [] => str [dot]
  | c0 :: r =>
      let hasRoot := is_slash c0 in
      match drop_while not_slash (drop_while is_slash (rev r)) with
      | [] => if hasRoot then str [slash] else str [dot]
      | _ :: before =>
          match before with
          | [] => if hasRoot then str [slash; slash] else str [c0]
          | _ => str (c0 :: rev before)
          end
      end
  end.

(** [path.extname]: from the last dot of the last segment, unless that
    segment has no dot, starts with its only dot, or is the segment .. *)
Definition extname (p : string) : string :=
  let base_rev := take_while not_slash (drop_while is_slash (rev (chars p))) in
  let after := take_while (fun c => negb (Ascii.eqb c dot)) base_rev in
  match drop_while (fun c => negb (Ascii.eqb c dot)) base_rev with
  | [] => EmptyString
  | _ :: before =>
      match before with
      | [] => EmptyString
      | _ => if is_dotdot (rev base_rev) then EmptyString
             else str (dot :: rev after)
      end
  end.

End Posix.

(** ** The compiler: [src/bin/lib/Compiler.js] *)

Module Compiler.

(** *** What the compiler is given *)

(** The functions of Node's [path] module that the compiler calls;
    [relative] and [resolve] depend on the working directory of the process. *)
Record path_api : Type := {
  extname : string -> string;
  join : string -> string -> string;
  dirname : string -> string;
  relative : string -> string -> string;
  resolve : string -> string -> string;
}.

(** The host and the libraries: the [path] module, [process.cwd()], the files
    [fs.readFileSync] can read (by path, with their text), [babylon.parse]
    (the File node of the source, [None] when it throws), the code generator
    of [@babel/generator], and
    Node's [require] for the loader modules named by the rules ([None] when no
    such module is installed).  A loader is taken to be a pure function from
    text to text.

    The last four fields are what the file system answers when [emitFile]
    writes the bundle, after every source has been read: whether the output
    directory exists, and the exception, if any, that removing it, creating it
    and writing the file raise ([None] when the call returns).  Each of these
    calls is made at most once in a run. *)
Record platform : Type := {
  path : path_api;
  cwd : string;
  files : gmap string string;
  babylon_parse : string -> option node;
  generator : node -> string;
  require : string -> option (string -> string);
  existsSync : string -> bool;
  rmSync : string -> option error;
  mkdirSync : string -> option error;
  writeFileSync : string -> string -> option error;
}.

(** One entry of [config.module.rules]: [test] is the pattern ([test.test]
    as a predicate on paths), [use] the array of loader names. *)
Record rule : Type := {
  test : string -> bool;
  use : list string;
}.

(** [config.module]; [rules] is [None] when the object has no such property. *)
Record module_options : Type := {
  rules : option (list rule);
}.

Record output_options : Type := {
  output_path : string;
  output_filename : string;
}.

(** The configuration object (the plugins, which the constructor hands the
    compiler to, are outside the model). *)
Record config : Type := {
  entry : string;
  output : output_options;
  module : option module_options;
}.

(** The mutable fields of a [Compiler]: [entryId] ([None] is undefined),
    [modules] and [assets].  [entryId_writes] is a ghost counter of the
    assignments to [this.entryId]. *)
Record compiler : Type := {
  entryId : option string;
  modules : object string;
  assets : object string;
  entryId_writes : nat;
}.

(** The fields as the constructor leaves them. *)
Definition constructor : compiler :=
  {| entryId := None; modules := []; assets := []; entryId_writes := 0 |}.

Definition backslash : ascii := ascii_of_nat 92.

(** [s.replace(/\\/g, "/")] *)
Fixpoint replace_backslashes (s : string) : string :=
  match s with
  | EmptyString => EmptyString
  | String c s' =>
      String (if Ascii.eqb c backslash then Posix.slash else c) (replace_backslashes s')
  end.

(** A string is truthy when it is not empty. *)
Definition truthy (s : string) : bool :=
  match s with
  | EmptyString => false
  | _ => true
  end.

(** A text has a backslash. *)
Fixpoint has_backslash (s : string) : bool :=
  match s with
  | EmptyString => false
  | String c s' => Ascii.eqb c backslash || has_backslash s'
  end.

(** The shape of the ids that [normalizePath] makes: ./ and then a text
    without backslash.  Such a string is no array index, so as a key of an
    object it is enumerated in insertion order. *)
Definition is_module_id (s : string) : Prop :=
  exists rest, s = "./" ++ rest /\ has_backslash rest = false.

(** The object [{ sourceCode, dependencies }] that [parse] returns. *)
Record parsed : Type := {
  sourceCode : string;
  dependencies : list string;
}.

(** The text of the bundle around the entry id and the module factories. *)
Definition template_head : string := "(function (modules) {
      var installedModules = {};
    
      function __webpack_require__(moduleId) {
        if (installedModules[moduleId]) {
          return installedModules[moduleId].exports;
        }
        var module = (installedModules[moduleId] = {
          i: moduleId,
          l: false,
          exports: {},
        });
    
        modules[moduleId].call(
          module.exports,
          module,
          module.exports,
          __webpack_require__
        );
    
        module.l = true;
    
        return module.exports;
      }
    
      return __webpack_require__((__webpack_require__.s = ".
Definition template_mid : string := "));
    })({
      ".
Definition template_tail : string := "
    });
    ".

(** The name the entry factory gives its third parameter. *)
Definition loader_name : string := "__webpack_require__".

(** One element of [arr] in [gTemplate]: the factory of module [key] with
    third parameter [param] and body [code]. *)
Definition factory (key param code : string) : string :=
  quoted key ++ ": function (module, exports, " ++ param ++ ") {
          eval(`" ++ code ++ "`);
        },".

Section WithPlatform.

Variable P : platform.
Variable cfg : config.

(** [this.root] *)
Definition root : string := cwd P.

(** [fs.readFileSync(path, "utf8")] *)
Definition readFileSync (p : string) : outcome string :=
  match files P !! p with
  | Some content => Ok content
  | None => Throw (ENOENT p)
  end.

(** The inner function [loader] of [readSource], called with the counter
    [len] at a valid index: it loads [use[len]], decrements [len], applies the
    loader to [content], and calls itself again while [len >= 0]. *)
Fixpoint loader (use : list string) (len : nat) (content : string) : outcome string :=
  match use !! len with
  | None => Throw TypeError
  | Some name =>
      match require P name with
      | None => Throw (MODULE_NOT_FOUND name)
      | Some loaderFn =>
          let content := loaderFn content in
          match len with
          | S len' => loader use len' content
          | O => Ok content
          end
      end
  end.

(** One turn of the loop over the rules.  [len] starts at [use.length - 1];
    for an empty [use] that is -1, and the first call of [loader] evaluates
    [require(use[-1])], that is [require(undefined)], which throws. *)
Definition apply_rule (p : string) (r : rule) (content : string) : outcome string :=
  let len := (Z.of_nat (length (use r)) - 1)%Z in
  if test r p then
    if (len <? 0)%Z then Throw TypeError
    else loader (use r) (Z.to_nat len) content
  else Ok content.

Definition readSource (p : string) : outcome string :=
  content ← readFileSync p;
  match module cfg with
  | None => Ok content
  | Some m =>
      match rules m with
      | None => Throw TypeError
      | Some rules => forEach rules (apply_rule p) content
      end
  end.

Definition normalizePath (p : string) : string :=
  let a := replace_backslashes p in
  let p := if truthy a then replace_backslashes p else a in
  "./" ++ p.

Definition normalizeModuleName (moduleName pPath : string) : string :=
  let name := moduleName in
  let name := name ++ (if truthy (extname (path P) name) then EmptyString else ".js") in
  let name := normalizePath (join (path P) pPath name) in
  name.

(** The CallExpression visitor of [parse] at a call with the given callee
    and arguments, with the array [dependencies] so far: [None] when the
    callee is not the identifier require; otherwise the new callee, the new
    arguments and the extended array, or the TypeError of a missing first
    argument ([node.arguments[0].value] of undefined) or of one that is no
    string literal ([path.extname] of a value that is not a string). *)
Definition visitor (parentPath : string) (callee : node) (arguments : list node)
    (dependencies : list string) : outcome (option (node * list node * list string)) :=
  if callee_is_require callee then
    match arguments with
    | StringLiteral moduleName :: _ =>
        let moduleName := normalizeModuleName moduleName parentPath in
        Ok (Some (Identifier loader_name,
                  [StringLiteral moduleName],
                  (dependencies ++ [moduleName])%list))
    | _ => Throw TypeError
    end
  else Ok None.

(** [traverse(ast, { CallExpression })]: every node is entered before its
    children, the children in the order of the visitor keys, and the children
    of a node are read after its visitor has run.  A rewritten call therefore
    has an Identifier and a StringLiteral as its only children, which no
    visitor handles, and its former arguments are never entered.  (Babel does
    not call the visitor on the root itself; the root is the File node.) *)
Fixpoint traverse (parentPath : string) (n : node) (dependencies : list string)
    {struct n} : outcome (node * list string) :=
  let traverse_all :=
    fix traverse_all (l : list node) (dependencies : list string)
        {struct l} : outcome (list node * list string) :=
      match l with
      | [] => Ok ([], dependencies)
      | x :: l' =>
          '(x', dependencies) ← traverse parentPath x dependencies;
          '(l'', dependencies) ← traverse_all l' dependencies;
          Ok (x' :: l'', dependencies)
      end in
  match n with
  | CallExpression callee arguments =>
      rewritten ← visitor parentPath callee arguments dependencies;
      match rewritten with
      | Some (callee', arguments', dependencies) =>
          Ok (CallExpression callee' arguments', dependencies)
      | None =>
          '(callee', dependencies) ← traverse parentPath callee dependencies;
          '(arguments', dependencies) ← traverse_all arguments dependencies;
          Ok (CallExpression callee' arguments', dependencies)
      end
  | Other type children =>
      '(children', dependencies) ← traverse_all children dependencies;
      Ok (Other type children', dependencies)
  | Identifier _ | StringLiteral _ => Ok (n, dependencies)
  end.

(** The traversal of a list of children, as a function of its own. *)
Fixpoint traverse_all (parentPath : string) (l : list node) (dependencies : list string)
    : outcome (list node * list string) :=
  match l with
  | [] => Ok ([], dependencies)
  | x :: l' =>
      '(x', dependencies) ← traverse parentPath x dependencies;
      '(l'', dependencies) ← traverse_all parentPath l' dependencies;
      Ok (x' :: l'', dependencies)
  end.

Definition parse (source parentPath : string) : outcome parsed :=
  match babylon_parse P source with
  | None => Throw SyntaxError
  | Some ast =>
      '(ast, dependencies) ← traverse parentPath ast [];
      Ok {| sourceCode := generator P ast; dependencies := dependencies |}
  end.

(** [this.entryId = moduleName] *)
Definition set_entryId (moduleName : string) (c : compiler) : compiler :=
  {| entryId := Some moduleName; modules := modules c; assets := assets c;
     entryId_writes := S (entryId_writes c) |}.

(** [this.modules[moduleName] = sourceCode] *)
Definition set_module (moduleName sourceCode : string) (c : compiler) : compiler :=
  {| entryId := entryId c; modules := set moduleName sourceCode (modules c);
     assets := assets c; entryId_writes := entryId_writes c |}.

(** [buildModule]; [fuel] bounds the depth of the recursion. *)
Fixpoint buildModule (fuel : nat) (modulePath : string) (isEntry : bool) (c : compiler)
    : outcome compiler :=
  match fuel with
  | O => Diverge
  | S fuel' =>
      source ← readSource modulePath;
      let moduleName := normalizePath (relative (path P) root modulePath) in
      let c := if isEntry then set_entryId moduleName c else c in
      r ← parse source (dirname (path P) moduleName);
      let c := set_module moduleName (sourceCode r) c in
      forEach (dependencies r)
        (fun dep c => buildModule fuel' (join (path P) root dep) false c) c
  end.

(** The array [arr] of [gTemplate]: one factory for each key of
    [this.modules], in the order of [Object.keys]. *)
Definition gTemplate_arr (c : compiler) : list string :=
  map (fun key =>
         factory key
           (if bool_decide (Some key = entryId c) then loader_name else EmptyString)
           (default "undefined" (get key (modules c))))
      (keys (modules c)).

Definition gTemplate (c : compiler) : string :=
  String.concat EmptyString (gTemplate_arr c).

(** The text [emitFile] writes, for a given entry id and module factories. *)
Definition template (entryId gTemplate : string) : string :=
  template_head ++ quoted entryId ++ template_mid ++ gTemplate ++ template_tail.

(** A file-system call made for its effect: it returns or throws. *)
Definition fs_call (r : option error) : outcome unit :=
  match r with
  | None => Ok tt
  | Some e => Throw e
  end.

(** [this.assets[main] = template] *)
Definition set_asset (main template : string) (c : compiler) : compiler :=
  {| entryId := entryId c; modules := modules c;
     assets := set main template (assets c); entryId_writes := entryId_writes c |}.

(** [emitFile]: the output directory is removed if it exists, and created;
    the bundle is stored in [this.assets] under the path of the output file
    and written there.  Each of the three file-system calls can throw, and
    nothing catches the exception. *)
Definition emitFile (c : compiler) : outcome compiler :=
  (if existsSync P (output_path (output cfg))
   then fs_call (rmSync P (output_path (output cfg)))
   else Ok tt) ;;
  fs_call (mkdirSync P (output_path (output cfg))) ;;
  let main := join (path P) (output_path (output cfg)) (output_filename (output cfg)) in
  let template := template (default "undefined" (entryId c)) (gTemplate c) in
  let c := set_asset main template c in
  fs_call (writeFileSync P main (default "undefined" (get main (assets c)))) ;;
  Ok c.

(** [run] on a freshly constructed compiler. *)
Definition run (fuel : nat) : outcome compiler :=
  c ← buildModule fuel (resolve (path P) root (entry cfg)) true constructor;
  emitFile c.

(** The bundle written by a run that completed. *)
Definition bundle (c : compiler) : option string :=
  get (join (path P) (output_path (output cfg)) (output_filename (output cfg))) (assets c).

(** *** The notions the properties are stated with *)

(** The canonical id of the module named [X] in a module of directory
    [parentDir]: the default extension is appended if [X] has none, the result
    joined with [parentDir], the separators turned into forward slashes, and
    ./ put in front. *)
Definition canonical_id (parentDir X : string) : string :=
  let hasExt := negb (String.eqb (extname (path P) X) EmptyString) in
  "./" ++ replace_backslashes
            (join (path P) parentDir (X ++ (if hasExt then EmptyString else ".js"))).

(** The id that [buildModule] gives the file at an absolute path. *)
Definition module_id (modulePath : string) : string :=
  normalizePath (relative (path P) root modulePath).


(** The absolute path of the configured entry file. *)
Definition entry_path : string := resolve (path P) root (entry cfg).

(** The transform chains of the rules applied as the specification words
    it: for each rule whose pattern matches, in the order of the rules, the
    functions of its chain from the last to the first. *)
Definition chain_functions (use : list string) : list (string -> string) :=
  omap (require P) use.

Definition transformed (rules : list rule) (p content : string) : string :=
  fold_left
    (fun content r =>
       if test r p then foldr (fun f acc => f acc) content (chain_functions (use r))
       else content)
    rules content.

(** What one call of [buildModule] does before it recurses: the paths it
    recurses into, in order. *)
Definition load (modulePath : string) : outcome (list string) :=
  source ← readSource modulePath;
  r ← parse source (dirname (path P) (module_id modulePath));
  Ok (map (join (path P) root) (dependencies r)).

(** The module-reference relation: the module at [p] can be read,
    transformed and parsed, and [q] is one of the paths it requires. *)
Definition references (p q : string) : Prop :=
  exists l, load p = Ok l /\ q ∈ l.

(** A reference chain from [p]. *)
Fixpoint chain (p : string) (l : list string) : Prop :=
  match l with
  | [] => True
  | q :: l' => references p q /\ chain q l'
  end.

(** No module reachable from the entry lies on a circular chain. *)
Definition acyclic : Prop :=
  forall p, rtc references entry_path p -> ~ tc references p p.

(** Some module reachable from the entry lies on a circular chain. *)
Definition circular : Prop :=
  exists p, rtc references entry_path p /\ tc references p p.

(** Every module reachable from the entry can be read, transformed and
    parsed. *)
Definition loadable : Prop :=
  forall p, rtc references entry_path p -> exists l, load p = Ok l.

(** What [buildModule] gets from [parse] for the file at [modulePath]:
    its rewritten source and its dependency ids. *)
Definition rewritten (modulePath : string) : outcome parsed :=
  source ← readSource modulePath;
  parse source (dirname (path P) (module_id modulePath)).

(** The build completes. *)
Definition completes : Prop := exists fuel c, run fuel = Ok c.

(** The module graph is built: the recursion of [buildModule] from the
    entry returns. *)
Definition builds_graph (c : compiler) : Prop :=
  exists fuel, buildModule fuel entry_path true constructor = Ok c.

(** The path of the output file. *)
Definition main : string :=
  join (path P) (output_path (output cfg)) (output_filename (output cfg)).

End WithPlatform.

End Compiler.

(** ** The runtime loader of the bundle

    The function [__webpack_require__] that [emitFile] writes into the bundle
    (the text of [Compiler.template_head]), run against the factories of the
    object literal that [gTemplate] writes. *)

Module Runtime.

(** The property names that every plain object answers for, inherited from
    [Object.prototype].  Each holds a function or, for __proto__, the prototype
    itself: a truthy value that has no property [exports]. *)
Definition Object_prototype : list string :=
  [ "constructor"; "hasOwnProperty"; "isPrototypeOf"; "propertyIsEnumerable";
    "toLocaleString"; "toString"; "valueOf"; "__proto__";
    "__defineGetter__"; "__defineSetter__"; "__lookupGetter__"; "__lookupSetter__" ].

Definition inherited (name : string) : bool :=
  existsb (String.eqb name) Object_prototype.

(** How the text of a module reaches the loader: by the identifier
    __webpack_require__, or as [arguments[2]] of its factory.  The loader
    passes itself to every factory as third argument, but the identifier is in
    scope only in a factory that names its third parameter so: the factories
    are written outside the function that declares the loader, and no global
    of that name is taken to exist. *)
Inductive access : Type :=
| ByName
| ByArgument.

Section Loader.

(** JavaScript values, as far as [module.exports] holds them, with the empty
    object [{}] and [undefined]. *)
Variable V : Type.
Variable empty_object : V.
Variable undefined : V.

(** What the text of a module does when its factory runs, as far as the
    loader can observe it: it returns, throws, updates [module.exports], or
    calls the loader and goes on with the exports it gets ([None] when the call
    threw: the text goes on only if it catches the exception, otherwise the
    continuation is [Raise]). *)
Inductive code : Type :=
| Return
| Raise
| Assign (f : V -> V) (k : code)
| Call (how : access) (moduleId : string) (k : option V -> code).

(** The text never throws, whatever the calls of the loader it makes
    give. *)
Fixpoint no_raise (c : code) : Prop :=
  match c with
  | Return => True
  | Raise => False
  | Assign _ k => no_raise k
  | Call _ _ k => forall r, no_raise (k r)
  end.


(** A factory of the object literal: [binds_loader] tells whether its third
    parameter is named __webpack_require__. *)
Record factory : Type := {
  binds_loader : bool;
  body : code;
}.

(** The record [{ i, l, exports }] of an instantiated module. *)
Record module_record : Type := {
  i : string;
  l : bool;
  exports : V;
}.

(** The own properties of [installedModules], and a ghost log of the
    factories called, latest first. *)
Record state : Type := {
  installedModules : gmap string module_record;
  executed : list string;
}.

Definition initial : state := {| installedModules := ∅; executed := [] |}.

(** A call returns a value, or throws, in a new state, or is still
    recursing when the fuel is spent. *)
Inductive result (A : Type) : Type :=
| Returned (a : A) (s : state)
| Thrown (s : state)
| Spinning.

Arguments Returned {A} a s.
Arguments Thrown {A} s.
Arguments Spinning {A}.

Definition final {A : Type} (r : result A) : option state :=
  match r with
  | Returned _ s => Some s
  | Thrown s => Some s
  | Spinning => None
  end.

Definition install (moduleId : string) (m : module_record) (s : state) : state :=
  {| installedModules := <[moduleId := m]> (installedModules s); executed := executed s |}.

Definition log (moduleId : string) (s : state) : state :=
  {| installedModules := installedModules s; executed := moduleId :: executed s |}.

(** [module.exports = f(module.exports)] on the record of [moduleId] *)
Definition assign (moduleId : string) (f : V -> V) (s : state) : state :=
  {| installedModules :=
       alter (fun m => {| i := i m; l := l m; exports := f (exports m) |})
             moduleId (installedModules s);
     executed := executed s |}.

(** [module.l = true] *)
Definition mark_loaded (moduleId : string) (s : state) : state :=
  {| installedModules :=
       alter (fun m => {| i := i m; l := true; exports := exports m |})
             moduleId (installedModules s);
     executed := executed s |}.

Definition exports_of (moduleId : string) (s : state) : V :=
  match installedModules s !! moduleId with
  | Some m => exports m
  | None => empty_object
  end.

(** The body of the factory of module [self], called with the loader
    [require] as third argument; [named] tells whether the factory names that
    parameter __webpack_require__.  A call by the identifier in a factory that
    does not name it throws a ReferenceError before any module is loaded. *)
Fixpoint run_code (require : string -> state -> result V) (named : bool)
    (self : string) (c : code) (s : state) : result unit :=
  match c with
  | Return => Returned tt s
  | Raise => Thrown s
  | Assign f k => run_code require named self k (assign self f s)
  | Call how moduleId k =>
      match how, named with
      | ByName, false => run_code require named self (k None) s
      | _, _ =>
          match require moduleId s with
          | Returned v s' => run_code require named self (k (Some v)) s'
          | Thrown s' => run_code require named self (k None) s'
          | Spinning => Spinning
          end
      end
  end.

(** The factories, by module id: the argument [modules] of the bundle. *)
Variable modules : gmap string factory.

(** [__webpack_require__].  The test [installedModules[moduleId]] also
    succeeds for a name that the object inherits; the value found there has
    no [exports], so the call returns [undefined]. *)
Fixpoint __webpack_require__ (fuel : nat) (moduleId : string) (s : state) : result V :=
  match fuel with
  | O => Spinning
  | S fuel' =>
      if inherited moduleId then Returned undefined s
      else
      match installedModules s !! moduleId with
      | Some m => Returned (exports m) s
      | None =>
          let module := {| i := moduleId; l := false; exports := empty_object |} in
          let s := install moduleId module s in
          match modules !! moduleId with
          | None => Thrown s
          | Some f =>
              match run_code (__webpack_require__ fuel') (binds_loader f)
                      moduleId (body f) (log moduleId s) with
              | Returned _ s =>
                  let s := mark_loaded moduleId s in
                  Returned (exports_of moduleId s) s
              | Thrown s => Thrown s
              | Spinning => Spinning
              end
          end
      end
  end.

(** The log mentions every factory at most once, and only factories of
    modules that have a record. *)
Definition consistent (s : state) : Prop :=
  NoDup (executed s) ∧ ∀ x, x ∈ executed s → x ∈ dom (installedModules s).

(** From [s] to [s'] no record was removed, and the factories called in
    between are pairwise distinct and belong to modules that had no record in
    [s] and have one in [s']. *)
Definition extends (s s' : state) : Prop :=
  dom (installedModules s) ⊆ dom (installedModules s') ∧
  ∃ new, executed s' = (new ++ executed s)%list ∧ NoDup new ∧
         ∀ x, x ∈ new → (x ∉ dom (installedModules s)) ∧ (x ∈ dom (installedModules s')).

(** What a call of the loader guarantees about the state it leaves. *)
Definition loader_extends (require : string -> state -> result V) : Prop :=
  forall moduleId s s', final (require moduleId s) = Some s' -> extends s s'.

(** The number of modules of the bundle that have no record yet. *)
Definition pending (s : state) : nat :=
  size (dom modules ∖ dom (installedModules s)).

End Loader.

Arguments Return {V}.
Arguments Raise {V}.
Arguments Assign {V} f k.
Arguments Call {V} how moduleId k.
Arguments Returned {V A} a s.
Arguments Thrown {V A} s.
Arguments Spinning {V A}.

(** The factories that [Compiler.gTemplate] writes for the module graph of
    [c], given what the text of each module does when evaluated: only the
    factory of the entry id names its third parameter. *)
Definition factories {V : Type} (eval : string -> code V) (c : Compiler.compiler)
    : gmap string (factory V) :=
  list_to_map
    (map (fun kv : string * string =>
            (kv.1, {| binds_loader := bool_decide (Some kv.1 = Compiler.entryId c);
                      body := eval kv.2 |}))
         (Compiler.modules c)).

End Runtime.

(** ** Concrete hosts and projects, to run the compiler on *)

Module Demo.

Import Compiler.

(** Node's [path] on a POSIX host, in a process started in [cwd]. *)
Definition posix (cwd : string) : path_api :=
  {| extname := Posix.extname;
     join := Posix.join;
     dirname := Posix.dirname;
     relative := Posix.relative cwd;
     resolve := Posix.resolve cwd |}.

(** The call [require(x)] with a string literal, an expression statement,
    and the File node of a program of expression statements. *)
Definition require_call (x : string) : node :=
  CallExpression (Identifier "require") [StringLiteral x].
Definition statement (e : node) : node := Other "ExpressionStatement" [e].
Definition program (es : list node) : node :=
  Other "File" [Other "Program" (map statement es)].

(** [exports.name = "value";] *)
Definition export (name value : string) : node :=
  Other "AssignmentExpression"
    [Other "MemberExpression" [Identifier "exports"; Identifier name];
     StringLiteral value].

(** A code generator for the trees above. *)
Fixpoint print (n : node) : string :=
  match n with
  | Identifier name => name
  | StringLiteral value => quoted value
  | CallExpression callee arguments =>
      print callee ++ "(" ++ String.concat ", " (map print arguments) ++ ")"
  | Other type children =>
      let parts := map print children in
      if String.eqb type "Program" then String.concat " " parts
      else if String.eqb type "ExpressionStatement" then String.concat " " parts ++ ";"
      else if String.eqb type "MemberExpression" then String.concat "." parts
      else if String.eqb type "AssignmentExpression" then String.concat " = " parts
      else String.concat " " parts
  end.

(** The source texts of the demo projects with their syntax trees: the
    parser of the demo host knows these texts and rejects every other. *)
Definition sources : list (string * node) :=
  [ ("require('./a'); require('./lib/b');",
     program [require_call "./a"; require_call "./lib/b"]);
    ("require('./lib/b'); require('./lib/b');",
     program [require_call "./lib/b"; require_call "./lib/b"]);
    ("exports.b = 'b';", program [export "b" "b"]);
    ("require('../proj/x.js');", program [require_call "../proj/x.js"]);
    ("exports.x = 'x';", program [export "x" "x"]);
    ("require('./a');", program [require_call "./a"]);
    ("require('./index');", program [require_call "./index"]);
    ("require('./missing'); require('./a');",
     program [require_call "./missing"; require_call "./a"]);
    ("require('a', require('b'));",
     program [CallExpression (Identifier "require") [StringLiteral "a"; require_call "b"]]) ].

Definition parser (source : string) : option node :=
  snd <$> List.find (fun kv => String.eqb (fst kv) source) sources.

(** Two loaders: one puts a comment line in front of the text, one strips
    the first character. *)
Definition banner (s : string) : string := "//b " ++ s.
Definition behead (s : string) : string :=
  match s with
  | EmptyString => EmptyString
  | String _ s' => s'
  end.

Definition loaders (name : string) : option (string -> string) :=
  if String.eqb name "banner-loader" then Some banner
  else if String.eqb name "behead-loader" then Some behead
  else None.

(** A POSIX host started in /proj with the given files.  No output
    directory exists yet; /proj/dist can be created, and a file can be written
    into it but not into a subdirectory of it, which nothing creates. *)
Definition host (fs : list (string * string)) : platform :=
  {| path := posix "/proj";
     cwd := "/proj";
     files := list_to_map fs;
     babylon_parse := parser;
     generator := print;
     require := loaders;
     existsSync := fun _ => false;
     rmSync := fun _ => None;
     mkdirSync := fun _ => None;
     writeFileSync := fun main _ =>
       if String.eqb (Posix.dirname main) "/proj/dist" then None
       else Some (ENOENT main) |}.

Definition settings (entry : string) (module : option module_options) : config :=
  {| entry := entry;
     output := {| output_path := "/proj/dist"; output_filename := "bundle.js" |};
     module := module |}.


(** A project without circular references: index requires a and lib/b, and
    a requires lib/b twice. *)
Definition diamond : platform :=
  host [ ("/proj/src/index.js", "require('./a'); require('./lib/b');");
         ("/proj/src/a.js", "require('./lib/b'); require('./lib/b');");
         ("/proj/src/lib/b.js", "exports.b = 'b';") ].

(** index.js requires x.js of its own directory by a path that leaves the
    project root and comes back. *)
Definition detour : platform :=
  host [ ("/proj/index.js", "require('../proj/x.js');");
         ("/proj/x.js", "exports.x = 'x';") ].

(** index requires a, and a requires index. *)
Definition circular : platform :=
  host [ ("/proj/index.js", "require('./a');");
         ("/proj/a.js", "require('./index');") ].

(** index requires a missing file and then a, and a requires itself. *)
Definition broken : platform :=
  host [ ("/proj/index.js", "require('./missing'); require('./a');");
         ("/proj/a.js", "require('./a');") ].


(** A module whose call of require has another call of require as its
    second argument. *)
Definition nested : platform :=
  host [ ("/proj/index.js", "require('a', require('b'));") ].

(** Rule sets: a matching rule with two loaders followed by one with one
    loader, and a matching rule with an empty chain. *)
Definition ends_with_js (p : string) : bool :=
  String.eqb (Posix.extname p) ".js".

Definition two_rules : module_options :=
  {| rules := Some [ {| test := ends_with_js; use := ["banner-loader"; "behead-loader"] |};
                     {| test := ends_with_js; use := ["banner-loader"] |};
                     {| test := fun _ => false; use := ["missing-loader"] |} ] |}.

Definition empty_chain : module_options :=
  {| rules := Some [ {| test := ends_with_js; use := [] |} ] |}.

(** The depth of a file of [diamond] in its reference graph. *)
Definition rank (p : string) : nat :=
  if String.eqb p "/proj/src/index.js" then 2
  else if String.eqb p "/proj/src/a.js" then 1
  else 0.

(** The factories of a bundle of two modules, with numbers for exports:
    the entry requires a twice and exports what it got; a exports 7 and then
    requires the entry through [arguments[2]], which is being loaded. *)
Definition factories : gmap string (Runtime.factory nat) :=
  list_to_map
    [ ("./index.js",
       {| Runtime.binds_loader := true;
          Runtime.body :=
            Runtime.Call Runtime.ByName "./a.js" (fun _ =>
            Runtime.Call Runtime.ByName "./a.js" (fun r =>
            Runtime.Assign (fun _ => default 0 r) Runtime.Return)) |});
      ("./a.js",
       {| Runtime.binds_loader := false;
          Runtime.body :=
            Runtime.Assign (fun _ => 7)
              (Runtime.Call Runtime.ByArgument "./index.js" (fun _ => Runtime.Return)) |}) ].

(** A text that calls __webpack_require__ by name for each of the ids in
    turn and catches nothing: when a call throws, so does the text. *)
Definition calls (ids : list string) : Runtime.code nat :=
  foldr (fun id k =>
           Runtime.Call Runtime.ByName id
             (fun r => match r with Some _ => k | None => Runtime.Raise end))
        Runtime.Return ids.

(** The call [__webpack_require__(id)] that [parse] leaves in a text. *)
Definition loader_call (id : string) : node :=
  CallExpression (Identifier "__webpack_require__") [StringLiteral id].

(** What the rewritten texts of the modules of [diamond] do when
    evaluated, as far as the loader sees it: lib/b sets its exports, a calls
    the loader for lib/b twice, and the entry calls it for a and for lib/b. *)
Definition eval (src : string) : Runtime.code nat :=
  if String.eqb src (print (program [export "b" "b"]))
  then Runtime.Assign (fun _ => 1) Runtime.Return
  else if String.eqb src
            (print (program [loader_call "./src/lib/b.js"; loader_call "./src/lib/b.js"]))
  then calls ["./src/lib/b.js"; "./src/lib/b.js"]
  else calls ["./src/a.js"; "./src/lib/b.js"].

(** The module graph of [diamond] after its build, with the entry id. *)
Definition diamond_graph : compiler :=
  match run diamond (settings "src/index.js" None) 3 with
  | Ok c => c
  | _ => constructor
  end.

(** A matching rule whose chain names a loader that is not installed. *)
Definition missing_loader : module_options :=
  {| rules := Some [ {| test := ends_with_js;
                        use := ["missing-loader"; "banner-loader"] |} ] |}.

End Demo.

(** * Properties *)

Module RuntimeFacts.

Import Runtime.

(** ** The runtime loader *)

Section LoaderFacts.

Variable V : Type.
Variable empty_object : V.
Variable undefined : V.
Variable modules : gmap string (factory V).

Local Abbreviation require := (__webpack_require__ V empty_object undefined modules).

(** From [s] to [s'] every record was kept, with its loaded flag. *)
Local Abbreviation keeps s s' :=
  (forall x m, installedModules V s !! x = Some m ->
     exists m', installedModules V s' !! x = Some m' /\ l V m' = l V m).

Lemma extends_refl (s : state V) : extends V s s.
Proof.
  split; [done|]. exists []. split; [done|]. split; [apply NoDup_nil_2|].
  intros x Hx. by apply elem_of_nil in Hx.
Qed.

Lemma extends_trans (s1 s2 s3 : state V) :
  extends V s1 s2 -> extends V s2 s3 -> extends V s1 s3.
Proof.
  intros [Hd1 (n1 & He1 & Hn1 & Hx1)] [Hd2 (n2 & He2 & Hn2 & Hx2)].
  split; [set_solver|]. exists (n2 ++ n1)%list.
  split; [by rewrite He2, He1, app_assoc|]. split.
  - apply NoDup_app. split; [done|]. split; [|done].
    intros x H2 H1. apply Hx2 in H2 as [H2 _]. apply Hx1 in H1 as [_ H1]. done.
  - intros x [H|H]%elem_of_app.
    + apply Hx2 in H as [Ha Hb]. split; [set_solver|done].
    + apply Hx1 in H as [Ha Hb]. split; [done|set_solver].
Qed.

Lemma extends_consistent (s s' : state V) :
  consistent V s -> extends V s s' -> consistent V s'.
Proof.
  intros [Hn Hs] [Hd (new & He & Hnew & Hx)]. split.
  - rewrite He. apply NoDup_app. split; [done|]. split; [|done].
    intros x H1 H2. apply Hx in H1 as [H1 _]. apply Hs in H2. done.
  - intros x. rewrite He. intros [H|H]%elem_of_app.
    + by apply Hx in H as [_ H].
    + apply Hs in H. set_solver.
Qed.

Lemma extends_assign (self : string) (f : V -> V) (s : state V) :
  extends V s (assign V self f s).
Proof.
  split; [simpl; by rewrite dom_alter_L|]. exists [].
  split; [done|]. split; [apply NoDup_nil_2|].
  intros x Hx. by apply elem_of_nil in Hx.
Qed.

Lemma extends_mark_loaded (moduleId : string) (s : state V) :
  extends V s (mark_loaded V moduleId s).
Proof.
  split; [simpl; by rewrite dom_alter_L|]. exists [].
  split; [done|]. split; [apply NoDup_nil_2|].
  intros x Hx. by apply elem_of_nil in Hx.
Qed.

Lemma extends_install (moduleId : string) (m : module_record V) (s : state V) :
  extends V s (install V moduleId m s).
Proof.
  split; [simpl; rewrite dom_insert_L; set_solver|]. exists [].
  split; [done|]. split; [apply NoDup_nil_2|].
  intros x Hx. by apply elem_of_nil in Hx.
Qed.

Lemma extends_install_log (moduleId : string) (m : module_record V) (s : state V) :
  installedModules V s !! moduleId = None ->
  extends V s (log V moduleId (install V moduleId m s)).
Proof.
  intros Hnone. split; [simpl; rewrite dom_insert_L; set_solver|].
  exists [moduleId]. split; [done|]. split; [apply NoDup_singleton|].
  intros x ->%list_elem_of_singleton. split.
  - by apply not_elem_of_dom.
  - simpl. rewrite dom_insert_L. set_solver.
Qed.

Lemma run_code_extends (require0 : string -> state V -> result V V) (named : bool)
    (self : string) (c : code V) :
  loader_extends V require0 ->
  forall s s', final V (run_code V require0 named self c s) = Some s' -> extends V s s'.
Proof.
  intros Hl. induction c as [| |f k IH|how moduleId k IH]; intros s s' H; simpl in H.
  - injection H as <-. apply extends_refl.
  - injection H as <-. apply extends_refl.
  - eapply extends_trans; [apply extends_assign|]. by apply IH.
  - assert (Hcall : final V match require0 moduleId s with
                            | Returned v s1 => run_code V require0 named self (k (Some v)) s1
                            | Thrown s1 => run_code V require0 named self (k None) s1
                            | Spinning => Spinning
                            end = Some s' -> extends V s s').
    { intros Hc. specialize (Hl moduleId s).
      destruct (require0 moduleId s) as [v s1|s1|]; [| |done].
      - eapply extends_trans; [by apply Hl|]. by eapply IH.
      - eapply extends_trans; [by apply Hl|]. by eapply IH. }
    destruct how, named; try by apply Hcall. by eapply IH.
Qed.

Lemma require_extends (fuel : nat) : loader_extends V (require fuel).
Proof.
  induction fuel as [|fuel IH]; intros moduleId s s' H; [done|].
  simpl in H. destruct (inherited moduleId).
  { injection H as <-. apply extends_refl. }
  destruct (installedModules V s !! moduleId) as [m|] eqn:Hm.
  { injection H as <-. apply extends_refl. }
  destruct (modules !! moduleId) as [f|] eqn:Hf.
  2:{ injection H as <-. apply extends_install. }
  set (module := {| i := moduleId; l := false; exports := empty_object |}) in *.
  pose proof (run_code_extends (require fuel) (binds_loader V f) moduleId (body V f) IH
                (log V moduleId (install V moduleId module s))) as Hrun.
  destruct (run_code V (require fuel) (binds_loader V f) moduleId (body V f) _)
    as [u s1|s1|]; [| |done].
  - injection H as <-.
    eapply extends_trans; [by apply extends_install_log|].
    eapply extends_trans; [by apply Hrun|]. apply extends_mark_loaded.
  - injection H as <-.
    eapply extends_trans; [by apply extends_install_log|]. by apply Hrun.
Qed.

(** The factory of a module that has a record is never called (again). *)
Lemma extends_not_executed (s s' : state V) (moduleId : string) :
  extends V s s' ->
  moduleId ∈ dom (installedModules V s) ->
  count_occ string_dec (executed V s') moduleId =
  count_occ string_dec (executed V s) moduleId.
Proof.
  intros [_ (new & -> & _ & Hx)] Hin.
  rewrite count_occ_app.
  replace (count_occ string_dec new moduleId) with 0; [done|].
  symmetry. apply count_occ_not_In. intros H%list_elem_of_In.
  by apply Hx in H as [H _].
Qed.

Lemma pending_extends (s s' : state V) :
  extends V s s' -> pending V modules s' <= pending V modules s.
Proof. intros [Hd _]. unfold pending. apply subseteq_size. set_solver. Qed.

Lemma pending_install (moduleId : string) (m : module_record V) (s : state V) :
  installedModules V s !! moduleId = None -> is_Some (modules !! moduleId) ->
  S (pending V modules (log V moduleId (install V moduleId m s))) = pending V modules s.
Proof.
  intros Hnone Hsome. unfold pending. simpl. rewrite dom_insert_L.
  apply not_elem_of_dom in Hnone. apply elem_of_dom in Hsome.
  replace (dom modules ∖ dom (installedModules V s))
    with ({[moduleId]} ∪ (dom modules ∖ ({[moduleId]} ∪ dom (installedModules V s)))).
  - pose proof (size_union (C := gset string) {[moduleId]}
                  (dom modules ∖ ({[moduleId]} ∪ dom (installedModules V s)))) as Hsz.
    rewrite Hsz by set_solver. by rewrite (size_singleton (C := gset string)).
  - apply set_eq. intros x. destruct (decide (x = moduleId)); set_solver.
Qed.

(** A factory body returns or throws when every call of the loader it
    makes does. *)
Lemma run_code_returns (require0 : string -> state V -> result V V) (named : bool)
    (self : string) (c : code V) (bound : nat) :
  loader_extends V require0 ->
  (forall moduleId s, pending V modules s <= bound -> require0 moduleId s <> Spinning) ->
  forall s, pending V modules s <= bound ->
            run_code V require0 named self c s <> Spinning.
Proof.
  intros Hext Hl. induction c as [| |f k IH|how moduleId k IH]; intros s Hs; simpl; try done.
  - apply IH. etrans; [apply pending_extends, extends_assign|done].
  - assert (Hcall : match require0 moduleId s with
                    | Returned v s1 => run_code V require0 named self (k (Some v)) s1
                    | Thrown s1 => run_code V require0 named self (k None) s1
                    | Spinning => Spinning
                    end <> Spinning).
    { pose proof (Hl moduleId s Hs) as Hr.
      pose proof (Hext moduleId s) as He.
      destruct (require0 moduleId s) as [v s1|s1|]; [| |done].
      - apply IH. etrans; [apply pending_extends, He|]; done.
      - apply IH. etrans; [apply pending_extends, He|]; done. }
    destruct how, named; try exact Hcall. by apply IH.
Qed.

(** The loader returns or throws when its fuel exceeds the number of
    modules without a record. *)
Lemma require_returns (fuel : nat) :
  forall moduleId s, pending V modules s < fuel -> require fuel moduleId s <> Spinning.
Proof.
  induction fuel as [|fuel IH]; intros moduleId s Hp; [lia|].
  simpl. destruct (inherited moduleId); [done|].
  destruct (installedModules V s !! moduleId) as [m|] eqn:Hm; [done|].
  destruct (modules !! moduleId) as [f|] eqn:Hf; [|done].
  set (module := {| i := moduleId; l := false; exports := empty_object |}).
  pose proof (pending_install moduleId module s Hm (mk_is_Some _ _ Hf)) as Hpi.
  assert (Hne : run_code V (require fuel) (binds_loader V f)
                  moduleId (body V f) (log V moduleId (install V moduleId module s))
                <> Spinning).
  { apply (run_code_returns _ _ _ _
             (pending V modules (log V moduleId (install V moduleId module s))));
      [apply require_extends| |done].
    intros id' s' Hs'. apply IH. lia. }
  by destruct (run_code V _ _ moduleId (body V f) _) as [u s1|s1|].
Qed.

(** A text that never throws makes a factory that never throws. *)
Lemma run_code_no_raise (require0 : string -> state V -> result V V) (named : bool)
    (self : string) (c : code V) :
  no_raise V c ->
  forall s s', run_code V require0 named self c s <> Thrown s'.
Proof.
  induction c as [| |f k IH|how moduleId k IH]; intros Hc s s'; simpl in *; try done.
  - by apply IH.
  - assert (Hcall : match require0 moduleId s with
                    | Returned v s1 => run_code V require0 named self (k (Some v)) s1
                    | Thrown s1 => run_code V require0 named self (k None) s1
                    | Spinning => Spinning
                    end <> Thrown s').
    { destruct (require0 moduleId s) as [v s1|s1|]; [by apply IH|by apply IH|done]. }
    destruct how, named; try exact Hcall. by apply IH.
Qed.

Lemma run_code_keeps (require0 : string -> state V -> result V V) (named : bool)
    (self : string) (c : code V) :
  (forall moduleId s s', final V (require0 moduleId s) = Some s' -> keeps s s') ->
  forall s s', final V (run_code V require0 named self c s) = Some s' -> keeps s s'.
Proof.
  intros Hl. induction c as [| |f k IH|how moduleId k IH]; intros s s' H x m Hx; simpl in H.
  - injection H as <-. by exists m.
  - injection H as <-. by exists m.
  - destruct (decide (self = x)) as [->|Hne].
    + destruct (IH _ _ H x {| i := i V m; l := l V m; exports := f (exports V m) |})
        as (m' & Hx' & Hl'); [|by exists m'].
      simpl. by rewrite lookup_alter_eq, Hx.
    + apply (IH _ _ H x). simpl. by rewrite lookup_alter_ne.
  - assert (Hcall : final V match require0 moduleId s with
                            | Returned v s1 => run_code V require0 named self (k (Some v)) s1
                            | Thrown s1 => run_code V require0 named self (k None) s1
                            | Spinning => Spinning
                            end = Some s' ->
                    exists m', installedModules V s' !! x = Some m' /\ l V m' = l V m).
    { intros Hc. specialize (Hl moduleId s).
      destruct (require0 moduleId s) as [v s1|s1|]; [| |done].
      - destruct (Hl s1 eq_refl x m Hx) as (m1 & Hx1 & Hl1).
        destruct (IH _ _ _ Hc x m1 Hx1) as (m2 & Hx2 & Hl2).
        exists m2. split; [done|congruence].
      - destruct (Hl s1 eq_refl x m Hx) as (m1 & Hx1 & Hl1).
        destruct (IH _ _ _ Hc x m1 Hx1) as (m2 & Hx2 & Hl2).
        exists m2. split; [done|congruence]. }
    destruct how, named; try by apply Hcall. by eapply IH.
Qed.

Lemma require_keeps (fuel : nat) :
  forall moduleId s s', final V (require fuel moduleId s) = Some s' -> keeps s s'.
Proof.
  induction fuel as [|fuel IH]; intros moduleId s s' H x m Hx; [done|].
  simpl in H. destruct (inherited moduleId).
  { injection H as <-. by exists m. }
  destruct (installedModules V s !! moduleId) as [m0|] eqn:Hm.
  { injection H as <-. by exists m. }
  assert (Hne : moduleId <> x) by congruence.
  set (module := {| i := moduleId; l := false; exports := empty_object |}) in *.
  assert (Hx0 : installedModules V (log V moduleId (install V moduleId module s)) !! x
                = Some m).
  { simpl. by rewrite lookup_insert_ne. }
  destruct (modules !! moduleId) as [f|] eqn:Hf.
  2:{ injection H as <-. by exists m. }
  pose proof (run_code_keeps (require fuel) (binds_loader V f) moduleId (body V f) IH
                (log V moduleId (install V moduleId module s))) as Hrun.
  destruct (run_code V (require fuel) (binds_loader V f) moduleId (body V f) _)
    as [u s1|s1|]; [| |done].
  - injection H as <-. destruct (Hrun s1 eq_refl x m Hx0) as (m1 & Hx1 & Hl1).
    exists m1. simpl. by rewrite lookup_alter_ne.
  - injection H as <-. by apply (Hrun s1 eq_refl x m Hx0).
Qed.


Lemma consistent_initial : consistent V (initial V).
Proof. split; [apply NoDup_nil_2|]. intros x Hx. by apply elem_of_nil in Hx. Qed.

Lemma consistent_count (s : state V) (moduleId : string) :
  consistent V s -> installedModules V s !! moduleId = None ->
  count_occ string_dec (executed V s) moduleId = 0.
Proof.
  intros [_ Hs] Hm. apply count_occ_not_In. intros Hx%list_elem_of_In.
  apply Hs in Hx. by apply not_elem_of_dom in Hm.
Qed.

(** C8. The loader, called with a module id (a name that a plain object
    does not inherit) in a state whose log of factory calls is consistent.  If
    the module has a record, the loader returns the exports of the record and
    nothing else happens.  If it has none: when the call returns, the module
    has a record that is marked loaded and holds the exports returned, and its
    factory has been called exactly once; when the call throws, the record is
    there, not marked loaded, and the factory has been called once, or not at
    all if there is none; in both cases the log is consistent again, so no
    factory is ever called twice; and the call ends when the fuel reaches the
    number of modules without a record.  It does return when the text of the
    factory does not throw, and what it returns is what the factory left in
    the exports of the record it was given: the record is created with empty
    exports and not loaded, the factory runs on it, and when the factory
    returns the record is marked loaded and its exports are returned. *)
Theorem loader_runs_each_factory_at_most_once
    (fuel : nat) (moduleId : string) (s : state V) :
  consistent V s ->
  inherited moduleId = false ->
  (forall m, installedModules V s !! moduleId = Some m ->
     __webpack_require__ V empty_object undefined modules (S fuel) moduleId s =
     Returned (exports V m) s) /\
  (installedModules V s !! moduleId = None ->
     match __webpack_require__ V empty_object undefined modules (S fuel) moduleId s with
     | Returned v s' =>
         consistent V s' /\
         (exists m, installedModules V s' !! moduleId = Some m /\
                    l V m = true /\ exports V m = v) /\
         is_Some (modules !! moduleId) /\
         count_occ string_dec (executed V s') moduleId = 1
     | Thrown s' =>
         consistent V s' /\
         (exists m, installedModules V s' !! moduleId = Some m /\ l V m = false) /\
         count_occ string_dec (executed V s') moduleId =
           match modules !! moduleId with Some _ => 1 | None => 0 end
     | Spinning => fuel < pending V modules s
     end) /\
  (forall f, installedModules V s !! moduleId = None ->
     modules !! moduleId = Some f ->
     no_raise V (body V f) ->
     pending V modules s <= fuel ->
     exists v s',
       __webpack_require__ V empty_object undefined modules (S fuel) moduleId s =
       Returned v s') /\
  (forall f s1, installedModules V s !! moduleId = None ->
     modules !! moduleId = Some f ->
     run_code V (__webpack_require__ V empty_object undefined modules fuel)
       (binds_loader V f) moduleId (body V f)
       (log V moduleId
          (install V moduleId {| i := moduleId; l := false; exports := empty_object |} s))
     = Returned tt s1 ->
     __webpack_require__ V empty_object undefined modules (S fuel) moduleId s =
     Returned (exports_of V empty_object moduleId (mark_loaded V moduleId s1))
              (mark_loaded V moduleId s1)).
Proof.
  intros Hs Hinh.
  pose proof (require_extends (S fuel) moduleId s) as Hext.
  pose proof (require_returns (S fuel) moduleId s) as Hret.
  set (module := {| i := moduleId; l := false; exports := empty_object |}).
  set (s0 := log V moduleId (install V moduleId module s)).
  assert (Hin : moduleId ∈ dom (installedModules V s0)).
  { simpl. rewrite dom_insert_L. set_solver. }
  assert (Hm0 : installedModules V s0 !! moduleId = Some module).
  { simpl. by rewrite lookup_insert_eq. }
  assert (Hstep : installedModules V s !! moduleId = None ->
            require (S fuel) moduleId s =
            match modules !! moduleId with
            | None => Thrown (install V moduleId module s)
            | Some f =>
                match run_code V (require fuel) (binds_loader V f) moduleId (body V f) s0 with
                | Returned _ s1 =>
                    Returned (exports_of V empty_object moduleId (mark_loaded V moduleId s1))
                             (mark_loaded V moduleId s1)
                | Thrown s1 => Thrown s1
                | Spinning => Spinning
                end
            end).
  { intros Hm. simpl. by rewrite Hinh, Hm. }
  split; [|split; [|split]].
  - intros m Hm. simpl. by rewrite Hinh, Hm.
  - intros Hm. specialize (Hstep Hm).
    pose proof (consistent_count s moduleId Hs Hm) as Hcount.
    destruct (require (S fuel) moduleId s) as [v s'|s'|] eqn:Hr.
    + split; [by eapply extends_consistent, Hext|].
      destruct (modules !! moduleId) as [f|] eqn:Hf; [|done].
      pose proof (run_code_extends (require fuel) (binds_loader V f) moduleId (body V f)
                    (require_extends fuel) s0) as Hrun.
      destruct (run_code V (require fuel) (binds_loader V f) moduleId (body V f) s0)
        as [u s1|s1|]; [|done|done].
      specialize (Hrun s1 eq_refl). injection Hstep as -> ->.
      assert (Hin1 : moduleId ∈ dom (installedModules V s1)).
      { destruct Hrun as [Hd _]. by apply Hd. }
      apply elem_of_dom in Hin1 as [m1 Hm1]. split; [|split; [done|]].
      * unfold exports_of, mark_loaded. simpl.
        rewrite lookup_alter_eq, Hm1. simpl. by eexists.
      * simpl. rewrite (extends_not_executed _ _ _ Hrun Hin). simpl.
        destruct (string_dec moduleId moduleId) as [_|Hne]; [|done].
        by rewrite Hcount.
    + split; [by eapply extends_consistent, Hext|].
      destruct (modules !! moduleId) as [f|] eqn:Hf.
      * pose proof (run_code_extends (require fuel) (binds_loader V f) moduleId (body V f)
                      (require_extends fuel) s0) as Hrun.
        pose proof (run_code_keeps (require fuel) (binds_loader V f) moduleId (body V f)
                      (require_keeps fuel) s0) as Hkeep.
        destruct (run_code V (require fuel) (binds_loader V f) moduleId (body V f) s0)
          as [u s1|s1|]; [done| |done].
        specialize (Hrun s1 eq_refl). injection Hstep as ->.
        destruct (Hkeep s1 eq_refl moduleId module Hm0) as (m1 & Hm1 & Hl1).
        split; [by exists m1|].
        rewrite (extends_not_executed _ _ _ Hrun Hin). simpl.
        destruct (string_dec moduleId moduleId) as [_|Hne]; [|done].
        by rewrite Hcount.
      * injection Hstep as ->. split; [|done].
        exists module. simpl. by rewrite lookup_insert_eq.
    + destruct (decide (fuel < pending V modules s)) as [|Hlt]; [done|].
      destruct Hret; [lia|done].
  - intros f Hm Hf Hno Hp. specialize (Hstep Hm). rewrite Hf in Hstep.
    pose proof (run_code_no_raise (require fuel) (binds_loader V f) moduleId (body V f)
                  Hno s0) as Hnr.
    destruct (require (S fuel) moduleId s) as [v s'|s'|] eqn:Hr.
    + by exists v, s'.
    + destruct (run_code V (require fuel) (binds_loader V f) moduleId (body V f) s0)
        as [u s1|s1|]; [done| |done].
      by destruct (Hnr s1).
    + destruct Hret; [lia|done].
  - intros f s1 Hm Hf Hrun. rewrite (Hstep Hm), Hf. fold module. fold s0.
    fold module in Hrun. fold s0 in Hrun. by rewrite Hrun.
Qed.

End LoaderFacts.

(** ** Failed loads *)

Section LoaderFailures.

Variable V : Type.
Variable empty_object : V.
Variable undefined : V.
Variable modules : gmap string (factory V).

Local Abbreviation require := (__webpack_require__ V empty_object undefined modules).

(** X13. A module whose load failed stays in the cache: when the loader
    throws for a module that had no record, because the module has no factory
    or because its factory threw, the record made for it is still there and
    is not marked loaded, and every later call for the module returns the
    exports of that record without calling a factory.  For a module without a
    factory these are the empty object. *)
Theorem failed_module_stays_cached
    (fuel : nat) (moduleId : string) (s s' : state V) :
  installedModules V s !! moduleId = None ->
  __webpack_require__ V empty_object undefined modules fuel moduleId s = Thrown s' ->
  exists m,
    installedModules V s' !! moduleId = Some m /\
    l V m = false /\
    (modules !! moduleId = None -> exports V m = empty_object) /\
    forall fuel',
      __webpack_require__ V empty_object undefined modules (S fuel') moduleId s' =
      Returned (exports V m) s'.
Proof.
  intros Hm H. destruct fuel as [|fuel]; [done|]. simpl in H.
  destruct (inherited moduleId) eqn:Hinh; [done|]. rewrite Hm in H.
  set (module := {| i := moduleId; l := false; exports := empty_object |}) in *.
  assert (Hlater : forall m, installedModules V s' !! moduleId = Some m ->
            forall fuel', require (S fuel') moduleId s' = Returned (exports V m) s').
  { intros m Hs' fuel'. simpl. by rewrite Hinh, Hs'. }
  destruct (modules !! moduleId) as [f|] eqn:Hf.
  - pose proof (run_code_keeps V (require fuel) (binds_loader V f) moduleId (body V f)
                  (require_keeps V empty_object undefined modules fuel)
                  (log V moduleId (install V moduleId module s))) as Hrun.
    destruct (run_code V (require fuel) (binds_loader V f) moduleId (body V f) _)
      as [u s1|s1|]; [done| |done].
    injection H as <-.
    destruct (Hrun s1 eq_refl moduleId module) as (m1 & Hm1 & Hl1).
    { simpl. by rewrite lookup_insert_eq. }
    exists m1. split; [done|]. split; [done|]. split; [done|]. by apply Hlater.
  - injection H as <-. exists module.
    assert (Hs' : installedModules V (install V moduleId module s) !! moduleId
                  = Some module) by (simpl; by rewrite lookup_insert_eq).
    split; [done|]. split; [done|]. split; [done|]. by apply Hlater.
Qed.

End LoaderFailures.

End RuntimeFacts.

Import Compiler.

(** ** Basic facts *)

Lemma bind_Ok {A B : Type} (m : outcome A) (k : A -> outcome B) (b : B) :
  m ≫= k = Ok b -> exists a, m = Ok a /\ k a = Ok b.
Proof. destruct m as [a| |]; simpl; intros H; try discriminate. by exists a. Qed.

Ltac inv_bind H :=
  let a := fresh "a" in
  let Ha := fresh "Ha" in
  apply bind_Ok in H; destruct H as (a & Ha & H).

Section Traversal.

Variable P : platform.
Variable parentPath : string.

Lemma traverse_all_fix (l : list node) (deps : list string) :
  (fix traverse_all (l : list node) (dependencies : list string)
       {struct l} : outcome (list node * list string) :=
     match l with
     | [] => Ok ([], dependencies)
     | x :: l' =>
         '(x', dependencies) ← traverse P parentPath x dependencies;
         '(l'', dependencies) ← traverse_all l' dependencies;
         Ok (x' :: l'', dependencies)
     end) l deps = traverse_all P parentPath l deps.
Proof.
  revert deps. induction l as [|x l IH]; intros deps; simpl; [done|].
  destruct (traverse P parentPath x deps) as [[x' d]| |]; simpl; try done.
  by rewrite IH.
Qed.

Lemma traverse_CallExpression callee arguments deps :
  traverse P parentPath (CallExpression callee arguments) deps =
  rewritten ← visitor P parentPath callee arguments deps;
  match rewritten with
  | Some (callee', arguments', deps) => Ok (CallExpression callee' arguments', deps)
  | None =>
      '(callee', deps) ← traverse P parentPath callee deps;
      '(arguments', deps) ← traverse_all P parentPath arguments deps;
      Ok (CallExpression callee' arguments', deps)
  end.
Proof.
  simpl. destruct (visitor P parentPath callee arguments deps) as [[[[c a] d]|]| |]; simpl; try done.
  destruct (traverse P parentPath callee deps) as [[c d]| |]; simpl; try done.
  by rewrite traverse_all_fix.
Qed.

Lemma traverse_Other type children deps :
  traverse P parentPath (Other type children) deps =
  '(children', deps) ← traverse_all P parentPath children deps;
  Ok (Other type children', deps).
Proof. simpl. by rewrite traverse_all_fix. Qed.


Lemma truthy_eqb (s : string) : truthy s = negb (String.eqb s EmptyString).
Proof. by destruct s. Qed.

Lemma normalizePath_eq (p : string) :
  normalizePath p = "./" ++ replace_backslashes p.
Proof.
  unfold normalizePath.
  by destruct (truthy (replace_backslashes p)) eqn:H; [|destruct (replace_backslashes p)].
Qed.

(** The id that the code computes is the canonical id of the specification. *)
Lemma normalizeModuleName_canonical (X parentDir : string) :
  normalizeModuleName P X parentDir = canonical_id P parentDir X.
Proof.
  unfold normalizeModuleName, canonical_id.
  by rewrite normalizePath_eq, truthy_eqb.
Qed.

Local Abbreviation canon := (canonical_id P parentPath).

Lemma required_all_fix (l : list node) :
  (fix required_all (l : list node) : list string :=
     match l with
     | [] => []
     | c :: l' => (required c ++ required_all l')%list
     end) l = required_all l.
Proof. induction l as [|c l IH]; simpl; [done|]. by rewrite IH. Qed.

Lemma supported_all_fix (l : list node) :
  (fix supported_all (l : list node) : bool :=
     match l with
     | [] => true
     | c :: l' => supported c && supported_all l'
     end) l = supported_all l.
Proof. induction l as [|c l IH]; simpl; [done|]. by rewrite IH. Qed.

Lemma positions_below_fix (i : nat) (l : list node) :
  (fix below (i : nat) (l : list node) : list (list nat) :=
     match l with
     | [] => []
     | c :: l' => (map (cons i) (positions c) ++ below (S i) l')%list
     end) i l = positions_below i l.
Proof. revert i. induction l as [|c l IH]; intros i; simpl; [done|]. by rewrite IH. Qed.

Lemma visitor_not_require callee arguments deps :
  callee_is_require callee = false ->
  visitor P parentPath callee arguments deps = Ok None.
Proof. intros H. unfold visitor. by rewrite H. Qed.

Lemma visitor_require callee x rest deps :
  callee_is_require callee = true ->
  visitor P parentPath callee (StringLiteral x :: rest) deps =
  Ok (Some (Identifier loader_name, [StringLiteral (canon x)], (deps ++ [canon x])%list)).
Proof. intros H. unfold visitor. by rewrite H, normalizeModuleName_canonical. Qed.

(** The traversal appends to the array, in the order of [required]. *)
Lemma traverse_all_appends (l : list node) :
  Forall (fun n => forall deps n' deps',
            traverse P parentPath n deps = Ok (n', deps') ->
            deps' = (deps ++ map canon (required n))%list) l ->
  forall deps l' deps',
    traverse_all P parentPath l deps = Ok (l', deps') ->
    deps' = (deps ++ map canon (required_all l))%list.
Proof.
  induction 1 as [|x l Hx _ IH]; intros deps l' deps' H; simpl in *.
  - injection H as <- <-. by rewrite app_nil_r.
  - inv_bind H. destruct a as [x' d1]. inv_bind H. destruct a as [l'' d2].
    injection H as <- <-.
    apply Hx in Ha. apply IH in Ha0. subst.
    by rewrite map_app, app_assoc.
Qed.

Lemma traverse_appends (n : node) :
  forall deps n' deps',
    traverse P parentPath n deps = Ok (n', deps') ->
    deps' = (deps ++ map canon (required n))%list.
Proof.
  induction n as [name|value|callee arguments IHc IHa|type children IH]
    using node_induction; intros deps n' deps' H.
  - simpl in H. injection H as <- <-. by rewrite app_nil_r.
  - simpl in H. injection H as <- <-. by rewrite app_nil_r.
  - rewrite traverse_CallExpression in H. simpl required. rewrite required_all_fix.
    unfold visitor in H.
    destruct (callee_is_require callee) eqn:Hreq.
    + destruct arguments as [|[name|x|c a|t c] rest]; simpl in H; try discriminate.
      injection H as <- <-. by rewrite normalizeModuleName_canonical.
    + simpl in H. inv_bind H. destruct a as [c' d1]. inv_bind H. destruct a as [a' d2].
      injection H as <- <-.
      apply IHc in Ha. eapply traverse_all_appends in Ha0; [|done]. subst.
      by rewrite map_app, app_assoc.
  - rewrite traverse_Other in H. simpl required. rewrite required_all_fix.
    inv_bind H. destruct a as [c' d1]. injection H as <- <-.
    by eapply traverse_all_appends in Ha.
Qed.

(** The traversal returns on every supported tree. *)
Lemma traverse_all_returns (l : list node) :
  Forall (fun n => supported n = true ->
            forall deps, exists r, traverse P parentPath n deps = Ok r) l ->
  supported_all l = true ->
  forall deps, exists r, traverse_all P parentPath l deps = Ok r.
Proof.
  induction 1 as [|x l Hx _ IH]; intros Hs deps; simpl in *.
  - by eexists.
  - apply andb_prop in Hs as [Hs1 Hs2].
    destruct (Hx Hs1 deps) as [[x' d1] ->]. simpl.
    destruct (IH Hs2 d1) as [[l' d2] ->]. simpl. by eexists.
Qed.

Lemma traverse_returns (n : node) :
  supported n = true ->
  forall deps, exists r, traverse P parentPath n deps = Ok r.
Proof.
  induction n as [name|value|callee arguments IHc IHa|type children IH]
    using node_induction; intros Hs deps.
  - by eexists.
  - by eexists.
  - rewrite traverse_CallExpression. simpl in Hs. rewrite supported_all_fix in Hs.
    unfold visitor. destruct (callee_is_require callee) eqn:Hreq.
    + destruct arguments as [|[name|x|c a|t c] rest]; try discriminate.
      simpl. by eexists.
    + apply andb_prop in Hs as [Hs1 Hs2]. simpl.
      destruct (IHc Hs1 deps) as [[c' d1] ->]. simpl.
      destruct (traverse_all_returns _ IHa Hs2 d1) as [[a' d2] ->]. simpl. by eexists.
  - rewrite traverse_Other. simpl in Hs. rewrite supported_all_fix in Hs.
    destruct (traverse_all_returns _ IH Hs deps) as [[c' d1] ->]. simpl. by eexists.
Qed.

(** What the traversal does to child [j] of a list of children. *)
Lemma traverse_all_lookup (l : list node) :
  forall deps l' deps' j c,
    traverse_all P parentPath l deps = Ok (l', deps') ->
    l !! j = Some c ->
    exists c' d1 d2 d3,
      l' !! j = Some c' /\ traverse P parentPath c d1 = Ok (c', d2) /\
      deps' = (d2 ++ d3)%list.
Proof.
  induction l as [|x l IH]; intros deps l' deps' j c H Hj; [done|].
  simpl in H. inv_bind H. destruct a as [x' d1]. inv_bind H. destruct a as [l'' d2].
  injection H as <- <-.
  destruct j as [|j]; simpl in Hj.
  - injection Hj as ->. exists x', deps, d1.
    assert (Hd : d2 = (d1 ++ map canon (required_all l))%list).
    { eapply traverse_all_appends; [|exact Ha0].
      apply Forall_forall. intros n _. apply traverse_appends. }
    exists (map canon (required_all l)). done.
  - simpl. eapply IH; [exact Ha0|exact Hj].
Qed.

(** A call of require that the traversal reaches is rewritten in place and
    its canonical id recorded. *)
Lemma traverse_at (n : node) :
  forall p deps n' deps' callee x rest,
    traverse P parentPath n deps = Ok (n', deps') ->
    reached n p = true ->
    subterm n p = Some (CallExpression callee (StringLiteral x :: rest)) ->
    callee_is_require callee = true ->
    subterm n' p = Some (CallExpression (Identifier loader_name) [StringLiteral (canon x)]) /\
    canon x ∈ deps'.
Proof.
  induction n as [name|value|callee0 arguments IHc IHa|type children IH]
    using node_induction; intros p deps n' deps' callee x rest H Hr Hs Hreq.
  - destruct p as [|i p]; simpl in Hs; [done|]. by destruct i.
  - destruct p as [|i p]; simpl in Hs; [done|]. by destruct i.
  - rewrite traverse_CallExpression in H.
    destruct p as [|i p].
    + simpl in Hs. injection Hs as -> ->.
      rewrite visitor_require in H by done. simpl in H. injection H as <- <-.
      split; [done|]. set_solver.
    + simpl in Hr. apply andb_prop in Hr as [Hn Hr].
      apply negb_true_iff in Hn. rewrite visitor_not_require in H by done.
      simpl in H. inv_bind H. destruct a as [c' d1]. inv_bind H. destruct a as [a' d2].
      injection H as <- <-.
      simpl in Hs. destruct i as [|i]; simpl in Hr, Hs |- *.
      * destruct (IHc p deps c' d1 callee x rest Ha Hr Hs Hreq) as [H1 H2].
        split; [done|].
        eapply traverse_all_appends in Ha0;
          [|apply Forall_forall; intros ? _; apply traverse_appends].
        subst. set_solver.
      * destruct (arguments !! i) as [c|] eqn:Hi; [|done].
        destruct (traverse_all_lookup _ _ _ _ _ _ Ha0 Hi) as (c1 & e1 & e2 & e3 & Hl & Ht & ->).
        rewrite Hl.
        rewrite Forall_forall in IHa.
        destruct (IHa c (list_elem_of_lookup_2 _ _ _ Hi) p e1 c1 e2 callee x rest Ht Hr Hs Hreq)
          as [H1 H2].
        split; [done|]. set_solver.
  - rewrite traverse_Other in H.
    destruct p as [|i p]; [done|].
    simpl in Hr, Hs. inv_bind H. destruct a as [c' d1]. injection H as <- <-.
    simpl.
    destruct (children !! i) as [c|] eqn:Hi; [|done].
    destruct (traverse_all_lookup _ _ _ _ _ _ Ha Hi) as (c1 & e1 & e2 & e3 & Hl & Ht & ->).
    rewrite Hl. rewrite Forall_forall in IH.
    destruct (IH c (list_elem_of_lookup_2 _ _ _ Hi) p e1 c1 e2 callee x rest Ht Hr Hs Hreq)
      as [H1 H2].
    split; [done|]. set_solver.
Qed.


End Traversal.

(** ** The pre-order listing of the rewritten calls *)

Lemma require_at_child (n c : node) (i : nat) (p : list nat) :
  is_require_call n = false -> child n i = Some c ->
  require_at n (i :: p) = require_at c p.
Proof. intros Hn Hc. unfold require_at. simpl. by rewrite Hn, Hc. Qed.

Lemma require_at_below_require (n : node) (i : nat) (p : list nat) :
  is_require_call n = true -> require_at n (i :: p) = None.
Proof. intros Hn. unfold require_at. simpl. by rewrite Hn. Qed.

Lemma omap_require_at_child (n c : node) (i : nat) (ps : list (list nat)) :
  is_require_call n = false -> child n i = Some c ->
  omap (require_at n) (map (cons i) ps) = omap (require_at c) ps.
Proof.
  intros Hn Hc. induction ps as [|p ps IH]; csimpl; [done|].
  by rewrite IH, (require_at_child n c i p Hn Hc).
Qed.

Lemma omap_require_at_below (n : node) (l : list node) :
  is_require_call n = false ->
  Forall (fun c => required_in_order c = required c) l ->
  forall i, (forall j c, l !! j = Some c -> child n (i + j) = Some c) ->
  omap (require_at n) (positions_below i l) = required_all l.
Proof.
  intros Hn. induction 1 as [|c l Hc _ IH]; intros i Hi; csimpl; [done|].
  rewrite omap_app.
  rewrite (omap_require_at_child n c i _ Hn).
  - rewrite (IH (S i)).
    + unfold required_in_order in Hc. by rewrite Hc.
    + intros j c' Hj. specialize (Hi (S j) c' Hj).
      by replace (S i + j) with (i + S j) by lia.
  - specialize (Hi 0 c eq_refl). by replace (i + 0) with i in Hi by lia.
Qed.

Lemma omap_require_at_dropped (n : node) (l : list node) (i : nat) :
  is_require_call n = true ->
  omap (require_at n) (positions_below i l) = [].
Proof.
  intros Hn. revert i. induction l as [|c l IH]; intros i; csimpl; [done|].
  rewrite omap_app, IH, app_nil_r.
  induction (positions c) as [|p ps IHp]; csimpl; [done|].
  by rewrite IHp, require_at_below_require.
Qed.

Lemma positions_CallExpression callee arguments :
  positions (CallExpression callee arguments) =
  [] :: positions_below 0 (callee :: arguments).
Proof. simpl. by rewrite positions_below_fix. Qed.

Lemma positions_Other type children :
  positions (Other type children) = [] :: positions_below 0 children.
Proof. simpl. by rewrite positions_below_fix. Qed.

Lemma required_CallExpression callee arguments :
  required (CallExpression callee arguments) =
  if callee_is_require callee then
    match arguments with
    | StringLiteral x :: _ => [x]
    | _ => []
    end
  else required_all (callee :: arguments).
Proof. simpl. by rewrite required_all_fix. Qed.

Lemma required_Other type children :
  required (Other type children) = required_all children.
Proof. simpl. by rewrite required_all_fix. Qed.

Lemma omap_cons_match {A B : Type} (f : A -> option B) (x : A) (l : list A) :
  omap f (x :: l) = match f x with Some y => y :: omap f l | None => omap f l end.
Proof. done. Qed.

Lemma required_in_order_required (n : node) :
  required_in_order n = required n.
Proof.
  induction n as [name|value|callee arguments IHc IHa|type children IH]
    using node_induction; try done.
  - unfold required_in_order.
    rewrite positions_CallExpression, required_CallExpression, omap_cons_match.
    destruct (callee_is_require callee) eqn:Hreq.
    + rewrite (omap_require_at_dropped _ (callee :: arguments) 0) by done.
      unfold require_at. simpl. rewrite Hreq.
      by destruct arguments as [|[name|x|c a|t c] rest].
    + rewrite (omap_require_at_below _ (callee :: arguments)); try done.
      * unfold require_at. simpl. rewrite Hreq.
        by destruct arguments as [|[name|x|c a|t c] rest].
      * by constructor.
  - unfold required_in_order.
    rewrite positions_Other, required_Other, omap_cons_match.
    by rewrite (omap_require_at_below _ children).
Qed.

(** ** The rewrite of [parse] *)

Lemma parse_Ok (P : platform) (source parentPath : string) (r : parsed) :
  parse P source parentPath = Ok r ->
  exists ast ast',
    babylon_parse P source = Some ast /\
    traverse P parentPath ast [] = Ok (ast', dependencies r) /\
    sourceCode r = generator P ast'.
Proof.
  unfold parse. destruct (babylon_parse P source) as [ast|]; [|done].
  intros H. inv_bind H. destruct a as [ast' deps]. injection H as <-.
  by exists ast, ast'.
Qed.

Lemma parse_returns (P : platform) (source parentPath : string) (ast : node) :
  babylon_parse P source = Some ast -> supported ast = true ->
  exists r, parse P source parentPath = Ok r.
Proof.
  intros Hp Hs. unfold parse. rewrite Hp.
  destruct (traverse_returns P parentPath ast Hs []) as [[ast' deps] ->].
  simpl. by eexists.
Qed.

(** C10. A call of the identifier require whose first argument is a string
    literal is rewritten to a call of __webpack_require__ with exactly one
    argument, the string literal of the canonical id, whatever arguments [rest]
    followed the first: they are dropped. *)
Theorem rewritten_call_has_one_argument
    (P : platform) (parentPath x : string) (rest : list node) (deps : list string) :
  traverse P parentPath
    (CallExpression (Identifier "require") (StringLiteral x :: rest)) deps =
  Ok (CallExpression (Identifier "__webpack_require__")
        [StringLiteral (canonical_id P parentPath x)],
      (deps ++ [canonical_id P parentPath x])%list).
Proof.
  by rewrite traverse_CallExpression, visitor_require.
Qed.

(** C1, as amended. In a module whose source parses to [ast], take a call
    require("X") with a string literal X at a position [p] that does not lie
    inside another call of require.  Whenever [parse] returns, the tree it
    prints has at [p] the call of __webpack_require__ with the canonical id of
    X (default extension appended if X has none, joined with the directory
    [parentPath] of the module, separators normalized, ./ prefixed) as its only
    argument, and that id is in the dependency list; and [parse] does return
    when every call of require it enters has a string literal first. *)
Theorem reached_require_is_rewritten
    (P : platform) (source parentPath : string) (ast : node)
    (p : list nat) (X : string) (rest : list node) :
  babylon_parse P source = Some ast ->
  subterm ast p = Some (CallExpression (Identifier "require") (StringLiteral X :: rest)) ->
  reached ast p = true ->
  (forall r, parse P source parentPath = Ok r ->
     exists ast',
       sourceCode r = generator P ast' /\
       subterm ast' p =
         Some (CallExpression (Identifier "__webpack_require__")
                 [StringLiteral (canonical_id P parentPath X)]) /\
       canonical_id P parentPath X ∈ dependencies r) /\
  (supported ast = true -> exists r, parse P source parentPath = Ok r).
Proof.
  intros Hp Hs Hr. split.
  - intros r H. apply parse_Ok in H as (ast0 & ast' & Hp' & Ht & Hc).
    rewrite Hp in Hp'. injection Hp' as <-.
    exists ast'. split; [done|].
    by eapply (traverse_at P parentPath ast p [] ast' (dependencies r)).
  - by apply parse_returns.
Qed.

(** C6. The dependency list that [parse] returns is the list of the
    canonical ids of the rewritten calls of require in the order of a
    pre-order, left-to-right walk of the syntax tree, with one entry for each
    call (a target required twice is listed twice); and [parse] returns when
    every call of require it enters has a string literal first. *)
Theorem dependencies_in_traversal_order
    (P : platform) (source parentPath : string) (ast : node) :
  babylon_parse P source = Some ast ->
  (forall r, parse P source parentPath = Ok r ->
     dependencies r = map (canonical_id P parentPath) (required_in_order ast)) /\
  (supported ast = true -> exists r, parse P source parentPath = Ok r).
Proof.
  intros Hp. split.
  - intros r H. apply parse_Ok in H as (ast0 & ast' & Hp' & Ht & Hc).
    rewrite Hp in Hp'. injection Hp' as <-.
    apply traverse_appends in Ht. by rewrite Ht, required_in_order_required.
  - by apply parse_returns.
Qed.

(** ** Loops and objects *)

Lemma forEach_not_Diverge {A S : Type} (l : list A) (f : A -> S -> outcome S) :
  (forall x s, x ∈ l -> f x s <> Diverge) ->
  forall s, forEach l f s <> Diverge.
Proof.
  induction l as [|x l IH]; intros Hf s; simpl; [done|].
  destruct (f x s) as [s'| |] eqn:Hx; simpl; [|done|].
  - apply IH. intros y s0 Hy. apply Hf. by right.
  - by destruct (Hf x s (list_elem_of_here _ _)).
Qed.

Lemma forEach_Ok_each {A S : Type} (l : list A) (f : A -> S -> outcome S) :
  forall s s' x, forEach l f s = Ok s' -> x ∈ l -> exists s1 s2, f x s1 = Ok s2.
Proof.
  induction l as [|y l IH]; intros s s' x H Hx; [by apply elem_of_nil in Hx|].
  simpl in H. inv_bind H.
  apply elem_of_cons in Hx as [->|Hx]; [by eauto|].
  by eapply IH.
Qed.

Lemma forEach_no_Throw {A S : Type} (l : list A) (f : A -> S -> outcome S) :
  (forall x s e, x ∈ l -> f x s <> Throw e) ->
  forall s e, forEach l f s <> Throw e.
Proof.
  induction l as [|x l IH]; intros Hf s e; simpl; [done|].
  destruct (f x s) as [s'|e'|] eqn:Hx; simpl; [| |done].
  - apply IH. intros y s0 e0 Hy. apply Hf. by right.
  - by destruct (Hf x s e' (list_elem_of_here _ _)).
Qed.

Lemma forEach_mono {A S : Type} (l : list A) (f g : A -> S -> outcome S) :
  (forall x s s', f x s = Ok s' -> g x s = Ok s') ->
  forall s s', forEach l f s = Ok s' -> forEach l g s = Ok s'.
Proof.
  intros Hfg. induction l as [|x l IH]; intros s s' H; simpl in *; [done|].
  inv_bind H. rewrite (Hfg _ _ _ Ha). simpl. by apply IH.
Qed.

Lemma forEach_invariant {A S : Type} (I : S -> Prop) (l : list A)
    (f : A -> S -> outcome S) :
  (forall x s s', I s -> f x s = Ok s' -> I s') ->
  forall s s', I s -> forEach l f s = Ok s' -> I s'.
Proof.
  intros Hf. induction l as [|x l IH]; intros s s' Hs H; simpl in *.
  - by injection H as <-.
  - inv_bind H. eapply IH; [|done]. by eapply Hf.
Qed.

Lemma forEach_Ok_each_below {A S : Type} (le : S -> S -> Prop) (l : list A)
    (f : A -> S -> outcome S) :
  (forall s, le s s) -> (forall s1 s2 s3, le s1 s2 -> le s2 s3 -> le s1 s3) ->
  (forall x s s', f x s = Ok s' -> le s s') ->
  forall s s' x, forEach l f s = Ok s' -> x ∈ l ->
    le s s' /\ exists s1 s2, f x s1 = Ok s2 /\ le s2 s'.
Proof.
  intros Hrefl Htrans Hf. induction l as [|y l IH]; intros s s' x H Hx;
    [by apply elem_of_nil in Hx|].
  simpl in H. inv_bind H.
  assert (Hle : forall t t', forEach l f t = Ok t' -> le t t').
  { clear -Hrefl Htrans Hf. induction l as [|z l IHl]; intros t t' Ht; simpl in Ht.
    - injection Ht as <-. apply Hrefl.
    - inv_bind Ht. eapply Htrans; [by eapply Hf|by apply IHl]. }
  split; [eapply Htrans; [by eapply Hf|by apply Hle]|].
  apply elem_of_cons in Hx as [->|Hx].
  - exists s, a. split; [done|]. by apply Hle.
  - by destruct (IH _ _ _ H Hx) as [_ ?].
Qed.

Lemma forEach_map {A B S : Type} (g : A -> B) (l : list A) (f : B -> S -> outcome S) :
  forall s, forEach (map g l) f s = forEach l (fun x => f (g x)) s.
Proof.
  induction l as [|x l IH]; intros s; simpl; [done|].
  destruct (f (g x) s); simpl; try done.
Qed.

Lemma get_set_eq {V : Type} (k : string) (v : V) (o : object V) :
  get k (set k v o) = Some v.
Proof.
  induction o as [|[k' v'] o IH]; simpl.
  - by rewrite String.eqb_refl.
  - destruct (String.eqb k' k) eqn:E; simpl.
    + by rewrite String.eqb_refl.
    + by rewrite E.
Qed.

Lemma keys_set {V : Type} (k : string) (v : V) (o : object V) :
  keys (set k v o) = if bool_decide (k ∈ keys o) then keys o else (keys o ++ [k])%list.
Proof.
  induction o as [|[k' v'] o IH]; simpl; [done|].
  destruct (String.eqb k' k) eqn:E; simpl.
  - apply String.eqb_eq in E as ->.
    rewrite bool_decide_eq_true_2; [done|]. unfold keys. simpl. by left.
  - apply String.eqb_neq in E. unfold keys in *. simpl. rewrite IH.
    destruct (bool_decide (k ∈ map fst o)) eqn:D.
    + apply bool_decide_eq_true in D. rewrite bool_decide_eq_true_2; [done|]. by right.
    + apply bool_decide_eq_false in D. rewrite bool_decide_eq_false_2; [done|].
      intros [?|?]%elem_of_cons; congruence.
Qed.

Lemma keys_set_subseteq {V : Type} (k : string) (v : V) (o : object V) :
  keys o ⊆ keys (set k v o) /\ k ∈ keys (set k v o).
Proof.
  rewrite keys_set. case_bool_decide; [done|]. split.
  - intros x Hx. apply elem_of_app. by left.
  - apply elem_of_app. right. by left.
Qed.

Lemma NoDup_keys_set {V : Type} (k : string) (v : V) (o : object V) :
  NoDup (keys o) -> NoDup (keys (set k v o)).
Proof.
  intros H. rewrite keys_set. case_bool_decide; [done|].
  apply NoDup_app. split; [done|]. split.
  - intros x Hx ->%list_elem_of_singleton. done.
  - apply NoDup_singleton.
Qed.

Lemma get_elem_of {V : Type} (o : object V) (k : string) (v : V) :
  NoDup (keys o) -> (k, v) ∈ o -> get k o = Some v.
Proof.
  induction o as [|[k' v'] o IH]; intros Hn H; [by apply elem_of_nil in H|].
  unfold keys in Hn. simpl in Hn. apply NoDup_cons in Hn as [Hk Hn].
  simpl. apply elem_of_cons in H as [H|H].
  - injection H as <- <-. by rewrite String.eqb_refl.
  - destruct (String.eqb k' k) eqn:E.
    + apply String.eqb_eq in E as ->. destruct Hk.
      apply list_elem_of_fmap. by exists (k, v).
    + by apply IH.
Qed.

(** ** One call of [buildModule] *)

Section Build.

Variable P : platform.
Variable cfg : config.

Local Abbreviation recurse n :=
  (fun dep c => buildModule P cfg n (join (path P) (root P) dep) false c).

Lemma buildModule_S (n : nat) (p : string) (isEntry : bool) (c : compiler) :
  buildModule P cfg (S n) p isEntry c =
  source ← readSource P cfg p;
  r ← parse P source (dirname (path P) (module_id P p));
  forEach (dependencies r) (recurse n)
    (set_module (module_id P p) (sourceCode r)
       (if isEntry then set_entryId (module_id P p) c else c)).
Proof. done. Qed.

Lemma load_Ok (p : string) (l : list string) :
  load P cfg p = Ok l <->
  exists source r,
    readSource P cfg p = Ok source /\
    parse P source (dirname (path P) (module_id P p)) = Ok r /\
    l = map (join (path P) (root P)) (dependencies r).
Proof.
  unfold load. split.
  - intros H. inv_bind H. inv_bind H. injection H as <-. by eauto.
  - intros (source & r & -> & Hp & ->). simpl. by rewrite Hp.
Qed.

Lemma loader_not_Diverge (use : list string) (len : nat) (content : string) :
  loader P use len content <> Diverge.
Proof.
  revert content. induction len as [|len IH]; intros content; simpl;
    destruct (use !! _); try done; destruct (require P _); try done.
Qed.

Lemma readSource_not_Diverge (p : string) : readSource P cfg p <> Diverge.
Proof.
  unfold readSource, readFileSync. destruct (files P !! p); [|done]. simpl.
  destruct (module cfg) as [m|]; [|done]. destruct (rules m) as [rs|]; [|done].
  apply forEach_not_Diverge. intros r0 s0 _. unfold apply_rule.
  destruct (test r0 p); [|done]. destruct (_ <? _)%Z; [done|].
  apply loader_not_Diverge.
Qed.

Lemma traverse_all_not_Diverge (parentPath : string) (l : list node) :
  Forall (fun n => forall deps, traverse P parentPath n deps <> Diverge) l ->
  forall deps, traverse_all P parentPath l deps <> Diverge.
Proof.
  induction 1 as [|x l Hx _ IH]; intros deps; simpl; [done|].
  specialize (Hx deps). destruct (traverse P parentPath x deps) as [[x' d]| |]; [|done|done].
  simpl. specialize (IH d). by destruct (traverse_all P parentPath l d) as [[l' d']| |].
Qed.

Lemma traverse_not_Diverge (parentPath : string) (n : node) :
  forall deps, traverse P parentPath n deps <> Diverge.
Proof.
  induction n as [name|value|callee arguments IHc IHa|type children IH]
    using node_induction; intros deps; try done.
  - rewrite traverse_CallExpression. unfold visitor.
    destruct (callee_is_require callee).
    + by destruct arguments as [|[name|x|c a|t c] rest].
    + simpl. specialize (IHc deps).
      destruct (traverse P parentPath callee deps) as [[c' d]| |]; [|done|done].
      simpl. pose proof (traverse_all_not_Diverge parentPath arguments IHa d).
      by destruct (traverse_all P parentPath arguments d) as [[l' d']| |].
  - rewrite traverse_Other.
    pose proof (traverse_all_not_Diverge parentPath children IH deps).
    by destruct (traverse_all P parentPath children deps) as [[l' d']| |].
Qed.

Lemma parse_not_Diverge (source parentPath : string) :
  parse P source parentPath <> Diverge.
Proof.
  unfold parse. destruct (babylon_parse P source) as [ast|]; [|done].
  pose proof (traverse_not_Diverge parentPath ast []).
  by destruct (traverse P parentPath ast []) as [[l' d']| |].
Qed.

(** A call either fails before it recurses, or recurses into the paths of
    [load]. *)
Lemma buildModule_load (n : nat) (p : string) (isEntry : bool) (c : compiler) :
  match load P cfg p with
  | Ok l =>
      exists c0, buildModule P cfg (S n) p isEntry c =
                 forEach l (fun q c => buildModule P cfg n q false c) c0
  | Throw e => buildModule P cfg (S n) p isEntry c = Throw e
  | Diverge => False
  end.
Proof.
  rewrite buildModule_S. unfold load.
  pose proof (readSource_not_Diverge p) as Hr.
  destruct (readSource P cfg p) as [source| |]; simpl; [|done|done].
  pose proof (parse_not_Diverge source (dirname (path P) (module_id P p))) as Hp.
  destruct (parse P source _) as [r| |]; simpl; [|done|done].
  eexists. by rewrite forEach_map.
Qed.

End Build.

(** ** The recursion of [buildModule] *)

Section Recursion.

Variable P : platform.
Variable cfg : config.

Local Abbreviation R := (references P cfg).

Lemma references_readable (p q : string) : R p q -> is_Some (files P !! p).
Proof.
  intros (l & Hl & _). apply load_Ok in Hl as (source & r & Hs & _).
  unfold readSource, readFileSync in Hs. by destruct (files P !! p).
Qed.

Lemma chain_tc (l : list string) :
  forall p x, chain P cfg p l -> x ∈ l -> tc R p x.
Proof.
  induction l as [|q l IH]; intros p x Hc Hx; [by apply elem_of_nil in Hx|].
  destruct Hc as [Hpq Hc]. apply elem_of_cons in Hx as [->|Hx].
  - by apply tc_once.
  - eapply tc_l; [done|]. by apply IH.
Qed.

Lemma chain_app (l1 l2 : list string) :
  forall p, chain P cfg p l1 -> chain P cfg (default p (last l1)) l2 ->
            chain P cfg p (l1 ++ l2).
Proof.
  induction l1 as [|q l1 IH]; intros p H1 H2; [done|].
  destruct H1 as [Hpq H1]. split; [done|]. apply IH; [done|].
  rewrite last_cons in H2. by destruct (last l1).
Qed.

Lemma rtc_chain (p q : string) :
  rtc R p q -> exists l, chain P cfg p l /\ default p (last l) = q.
Proof.
  induction 1 as [p|p q r Hpq _ (l & Hc & Hl)].
  - by exists [].
  - exists (q :: l). split; [done|]. rewrite last_cons. by destruct (last l).
Qed.

Lemma tc_chain (p q : string) :
  tc R p q -> exists l, chain P cfg p l /\ default p (last l) = q /\ 1 <= length l.
Proof.
  induction 1 as [p q Hpq|p q r Hpq _ (l & Hc & Hl & Hn)].
  - exists [q]. simpl. split; [done|]. split; [done|lia].
  - exists (q :: l). split; [done|]. rewrite last_cons.
    destruct (last l) eqn:E; simpl in *; [split; [done|lia]|].
    apply last_None in E. subst. simpl in Hn. lia.
Qed.

(** Around a circular chain there are reference chains of every length. *)
Lemma cycle_chains (p : string) :
  tc R p p -> forall n, exists l, chain P cfg p l /\ default p (last l) = p /\ n <= length l.
Proof.
  intros (l1 & Hc1 & Hl1 & Hn1)%tc_chain. induction n as [|n (l & Hc & Hl & Hn)].
  - exists []. simpl. split; [done|]. split; [done|lia].
  - exists (l1 ++ l)%list. split; [|split].
    + apply chain_app; [done|]. by rewrite Hl1.
    + rewrite last_app. destruct (last l) eqn:E; simpl in *; [done|].
      by rewrite Hl1.
    + rewrite length_app. lia.
Qed.

Lemma circular_chains :
  circular P cfg -> forall n, exists l, chain P cfg (entry_path P cfg) l /\ n <= length l.
Proof.
  intros (p & (l0 & Hc0 & Hl0)%rtc_chain & Hcyc) n.
  destruct (cycle_chains p Hcyc n) as (l & Hc & _ & Hn).
  exists (l0 ++ l)%list. split.
  - apply chain_app; [done|]. by rewrite Hl0.
  - rewrite length_app. lia.
Qed.

(** Without a circular chain no module occurs twice on a chain. *)
Lemma acyclic_chain_NoDup (l : list string) :
  acyclic P cfg ->
  forall p, rtc R (entry_path P cfg) p -> chain P cfg p l -> NoDup (p :: l).
Proof.
  intros Hac. induction l as [|q l IH]; intros p Hp Hc.
  - apply NoDup_singleton.
  - apply NoDup_cons. split.
    + intros Hin. apply (Hac p Hp). by eapply chain_tc.
    + destruct Hc as [Hpq Hc]. apply IH; [|done]. by eapply rtc_r.
Qed.

Lemma chain_sources_readable (l : list string) :
  forall p x, chain P cfg p l -> x ∈ take (length l) (p :: l) ->
              is_Some (files P !! x).
Proof.
  induction l as [|q l IH]; intros p x Hc Hx; simpl in Hx; [by apply elem_of_nil in Hx|].
  destruct Hc as [Hpq Hc]. apply elem_of_cons in Hx as [->|Hx].
  - by eapply references_readable.
  - by eapply IH.
Qed.

(** Without a circular chain a chain is no longer than the number of files. *)
Lemma acyclic_chain_length (l : list string) :
  acyclic P cfg -> chain P cfg (entry_path P cfg) l ->
  length l <= size (dom (files P)).
Proof.
  intros Hac Hc.
  pose proof (acyclic_chain_NoDup l Hac _ (rtc_refl _ _) Hc) as Hnd.
  set (ks := take (length l) (entry_path P cfg :: l)).
  assert (Hks : NoDup ks).
  { eapply sublist_NoDup; [|apply sublist_take]. exact Hnd. }
  assert (Hlen : length ks = length l).
  { unfold ks. rewrite length_take_le; [done|]. simpl. lia. }
  rewrite <- Hlen, <- (size_list_to_set (C := gset string) ks Hks).
  apply subseteq_size. intros x Hx%elem_of_list_to_set.
  apply elem_of_dom. by eapply chain_sources_readable.
Qed.

(** A call whose reference chains are shorter than the fuel returns or
    throws. *)
Lemma bounded_not_Diverge (n : nat) :
  forall p isEntry c,
    (forall l, chain P cfg p l -> length l < n) ->
    buildModule P cfg n p isEntry c <> Diverge.
Proof.
  induction n as [|n IH]; intros p isEntry c Hb.
  - specialize (Hb [] I). simpl in Hb. lia.
  - pose proof (buildModule_load P cfg n p isEntry c) as Hstep.
    destruct (load P cfg p) as [l| |] eqn:Hl; [|by rewrite Hstep|done].
    destruct Hstep as [c0 ->]. apply forEach_not_Diverge. intros q s Hq.
    apply IH. intros l' Hc'.
    assert (Hqc : chain P cfg p (q :: l')) by (split; [by exists l|done]).
    apply Hb in Hqc. simpl in Hqc. lia.
Qed.

(** A call that returns has met no reference chain as long as its fuel. *)
Lemma Ok_bounded (n : nat) :
  forall p isEntry c c',
    buildModule P cfg n p isEntry c = Ok c' ->
    forall l, chain P cfg p l -> length l < n.
Proof.
  induction n as [|n IH]; intros p isEntry c c' H l Hc; [done|].
  destruct l as [|q l]; simpl; [lia|].
  destruct Hc as [(l0 & Hl0 & Hq) Hc].
  pose proof (buildModule_load P cfg n p isEntry c) as Hstep.
  rewrite Hl0 in Hstep. destruct Hstep as [c0 Hstep]. rewrite Hstep in H.
  destruct (forEach_Ok_each _ _ _ _ _ H Hq) as (s1 & s2 & Hs).
  apply (IH _ _ _ _ Hs) in Hc. lia.
Qed.

(** A call throws only if some module it reaches fails to load. *)
Lemma loadable_no_Throw (n : nat) :
  forall p isEntry c,
    (forall q, rtc R p q -> exists l, load P cfg q = Ok l) ->
    forall e, buildModule P cfg n p isEntry c <> Throw e.
Proof.
  induction n as [|n IH]; intros p isEntry c Hl e; [done|].
  destruct (Hl p (rtc_refl _ _)) as [l Hp].
  pose proof (buildModule_load P cfg n p isEntry c) as Hstep.
  rewrite Hp in Hstep. destruct Hstep as [c0 ->].
  apply forEach_no_Throw. intros q s e' Hq. apply IH.
  intros q' Hq'. apply Hl. eapply rtc_l; [|done]. by exists l.
Qed.

(** More fuel does not change what a call returns. *)
Lemma buildModule_fuel_S (n : nat) :
  forall p isEntry c c',
    buildModule P cfg n p isEntry c = Ok c' ->
    buildModule P cfg (S n) p isEntry c = Ok c'.
Proof.
  induction n as [|n IH]; intros p isEntry c c' H; [done|].
  rewrite buildModule_S in H |- *.
  inv_bind H. rewrite Ha. cbn [mbind outcome_bind bind].
  inv_bind H. rewrite Ha0. cbn [mbind outcome_bind bind].
  eapply forEach_mono; [|exact H]. intros dep s s' Hs. by apply IH.
Qed.

Lemma buildModule_fuel_le (n m : nat) (p : string) (isEntry : bool) (c c' : compiler) :
  n <= m ->
  buildModule P cfg n p isEntry c = Ok c' ->
  buildModule P cfg m p isEntry c = Ok c'.
Proof.
  induction 1 as [|m _ IH]; [done|]. intros H. by apply buildModule_fuel_S, IH.
Qed.

Lemma run_fuel_le (n m : nat) (c : compiler) :
  n <= m -> run P cfg n = Ok c -> run P cfg m = Ok c.
Proof.
  intros Hle H. unfold run in *. inv_bind H.
  by rewrite (buildModule_fuel_le n m _ _ _ _ Hle Ha).
Qed.

(** What a recursive call (with [isEntry] false) preserves. *)
Lemma buildModule_invariant (I : compiler -> Prop) :
  (forall k v c, I c -> I (set_module k v c)) ->
  forall n p c c', I c -> buildModule P cfg n p false c = Ok c' -> I c'.
Proof.
  intros HI. induction n as [|n IH]; intros p c c' Hc H; [done|].
  rewrite buildModule_S in H. inv_bind H. inv_bind H.
  eapply (forEach_invariant I); [|apply HI, Hc|exact H].
  intros dep s s' Hs Hb. eapply IH; [exact Hs|exact Hb].
Qed.

(** The entry call sets the entry id; no later call touches it. *)
Lemma buildModule_entry (n : nat) (p : string) (c c' : compiler) :
  buildModule P cfg n p true c = Ok c' ->
  entryId c' = Some (module_id P p) /\
  entryId_writes c' = S (entryId_writes c) /\
  (NoDup (keys (modules c)) -> NoDup (keys (modules c'))).
Proof.
  destruct n as [|n]; [done|]. intros H.
  rewrite buildModule_S in H. inv_bind H. inv_bind H.
  set (I := fun c0 : compiler =>
              entryId c0 = Some (module_id P p) /\
              entryId_writes c0 = S (entryId_writes c) /\
              (NoDup (keys (modules c)) -> NoDup (keys (modules c0)))).
  assert (HI : forall k v c0, I c0 -> I (set_module k v c0)).
  { intros k v c0 (? & ? & Hk). repeat split; try done.
    intros Hn. simpl. by apply NoDup_keys_set, Hk. }
  eapply (forEach_invariant I); [| |exact H].
  - intros dep s s' Hs Hb. eapply (buildModule_invariant I HI); [exact Hs|exact Hb].
  - apply HI. by repeat split.
Qed.

(** A call only adds keys to the module graph. *)
Lemma buildModule_keys (n : nat) :
  forall p isEntry c c',
    buildModule P cfg n p isEntry c = Ok c' ->
    keys (modules c) ⊆ keys (modules c').
Proof.
  induction n as [|n IH]; intros p isEntry c c' H; [done|].
  rewrite buildModule_S in H. inv_bind H. inv_bind H.
  apply (forEach_invariant (fun c0 => keys (modules c) ⊆ keys (modules c0)))
    in H; [done| |].
  - intros dep s s' Hs Hb. etrans; [exact Hs|]. by eapply IH.
  - simpl. etrans; [|apply keys_set_subseteq]. by destruct isEntry.
Qed.

(** When a call returns, the id of every module reachable from its path is
    a key of the module graph. *)
Lemma buildModule_reachable_keys (n : nat) :
  forall p isEntry c c',
    buildModule P cfg n p isEntry c = Ok c' ->
    forall q, rtc R p q -> module_id P q ∈ keys (modules c').
Proof.
  induction n as [|n IH]; intros p isEntry c c' H q Hq; [done|].
  pose proof H as H0.
  rewrite buildModule_S in H. inv_bind H. inv_bind H.
  set (le := fun c1 c2 : compiler => keys (modules c1) ⊆ keys (modules c2)).
  assert (Hstep : forall dep s s',
             buildModule P cfg n (join (path P) (root P) dep) false s = Ok s' -> le s s').
  { intros dep s s' Hs. by eapply buildModule_keys. }
  apply rtc_inv in Hq as [<-|(q0 & Hpq & Hq)].
  - apply (forEach_invariant (fun c0 => module_id P p ∈ keys (modules c0))) in H;
      [done| |].
    + intros dep s s' Hs Hb. by eapply Hstep.
    + simpl. apply keys_set_subseteq.
  - destruct Hpq as (l & Hl & Hin). apply load_Ok in Hl as (src & r & Hsrc & Hr & ->).
    rewrite Ha in Hsrc. injection Hsrc as <-. rewrite Ha0 in Hr. injection Hr as <-.
    apply list_elem_of_fmap in Hin as (dep & -> & Hdep).
    assert (Hrefl : forall s, le s s) by (intros s; by unfold le).
    assert (Htrans : forall s1 s2 s3, le s1 s2 -> le s2 s3 -> le s1 s3).
    { intros s1 s2 s3 H1 H2. unfold le in *. by etrans. }
    destruct (forEach_Ok_each_below le _ _ Hrefl Htrans Hstep _ _ dep H Hdep)
      as (_ & s1 & s2 & Hb & Hle).
    apply Hle. by eapply IH.
Qed.

End Recursion.

(** ** The transform chains of [readSource] *)

Section Loaders.

Variable P : platform.
Variable cfg : config.

Lemma chain_functions_app (l1 l2 : list string) :
  chain_functions P (l1 ++ l2) = (chain_functions P l1 ++ chain_functions P l2)%list.
Proof. apply omap_app. Qed.

(** Called at a valid index, [loader] applies the loaders at that index and
    below, the highest first. *)
Lemma loader_applies (use : list string) (len : nat) :
  len < length use ->
  (forall name, name ∈ use -> is_Some (require P name)) ->
  forall content,
    loader P use len content =
    Ok (foldr (fun f acc => f acc) content (chain_functions P (take (S len) use))).
Proof.
  intros Hlen Hall. induction len as [|len IH]; intros content.
  - destruct use as [|name use]; [simpl in Hlen; lia|]. simpl.
    destruct (Hall name (list_elem_of_here _ _)) as [f Hf].
    unfold chain_functions. simpl. by rewrite Hf.
  - destruct (lookup_lt_is_Some_2 use (S len) Hlen) as [name Hname].
    cbn [loader]. rewrite Hname.
    destruct (Hall name (list_elem_of_lookup_2 _ _ _ Hname)) as [f Hf].
    rewrite Hf, IH by lia.
    rewrite (take_S_r use (S len) name Hname), chain_functions_app, foldr_app.
    unfold chain_functions at 2. simpl. by rewrite Hf.
Qed.

Lemma apply_rule_applies (p : string) (r : rule) (content : string) :
  (test r p = true ->
   use r <> [] /\ forall name, name ∈ use r -> is_Some (require P name)) ->
  apply_rule P p r content =
  Ok (if test r p then foldr (fun f acc => f acc) content (chain_functions P (use r))
      else content).
Proof.
  intros H. unfold apply_rule. destruct (test r p); [|done].
  destruct (H eq_refl) as [Hne Hall].
  destruct (use r) as [|name use] eqn:Hu; [done|].
  assert (Hlen : (Z.of_nat (length (name :: use)) - 1 <? 0)%Z = false).
  { apply Z.ltb_ge. simpl length. lia. }
  rewrite Hlen, loader_applies; [|simpl; lia|done].
  replace (S (Z.to_nat (Z.of_nat (length (name :: use)) - 1)))
    with (length (name :: use)) by (simpl length; lia).
  by rewrite firstn_all.
Qed.

(** Where every matching rule has a chain that is not empty and names
    installed loaders, [readSource] returns the text transformed as the
    specification says; without [config.module] it returns the text of the
    file. *)
Lemma readSource_applies_chains (p content : string) :
  files P !! p = Some content ->
  match module cfg with
  | None => readSource P cfg p = Ok content
  | Some m =>
      forall rs, rules m = Some rs ->
        (forall r, r ∈ rs -> test r p = true ->
           use r <> [] /\ forall name, name ∈ use r -> is_Some (require P name)) ->
        readSource P cfg p = Ok (transformed P rs p content)
  end.
Proof.
  intros Hf. unfold readSource, readFileSync. rewrite Hf. simpl.
  destruct (module cfg) as [m|]; [|done].
  intros rs -> Hrs. unfold transformed. clear Hf. revert content Hrs.
  induction rs as [|r rs IH]; intros content Hrs; simpl; [done|].
  rewrite apply_rule_applies by (apply Hrs; by left). simpl.
  apply IH. intros r' Hr'. apply Hrs. by right.
Qed.

End Loaders.

(** ** The build as a whole *)

Lemma string_append_cons (a : ascii) (s r : string) :
  String a s ++ r = String a (s ++ r).
Proof. reflexivity. Qed.


Lemma string_append_assoc (s1 s2 s3 : string) :
  (s1 ++ s2) ++ s3 = s1 ++ s2 ++ s3.
Proof.
  induction s1 as [|a s1 IH]; [reflexivity|]. by rewrite !string_append_cons, IH.
Qed.

Lemma quoted_app (s r : string) :
  quoted s ++ r = String (ascii_of_nat 34) (s ++ String (ascii_of_nat 34) r).
Proof. unfold quoted, dq. rewrite !string_append_assoc. reflexivity. Qed.

Section Whole.

Variable P : platform.
Variable cfg : config.

Lemma run_eq (fuel : nat) :
  run P cfg fuel =
  c ← buildModule P cfg fuel (entry_path P cfg) true constructor;
  emitFile P cfg c.
Proof. done. Qed.

Lemma fs_call_Ok (r : option error) (u : unit) : fs_call r = Ok u -> r = None.
Proof. by destruct r. Qed.

Lemma fs_call_not_Diverge (r : option error) : fs_call r <> Diverge.
Proof. by destruct r. Qed.

(** When [emitFile] returns, it has stored the bundle and nothing else. *)
Lemma emitFile_Ok (c0 c : compiler) :
  emitFile P cfg c0 = Ok c ->
  c = set_asset
        (join (path P) (output_path (output cfg)) (output_filename (output cfg)))
        (template (default "undefined" (entryId c0)) (gTemplate c0)) c0.
Proof.
  unfold emitFile. intros H. inv_bind H. inv_bind H. inv_bind H. by injection H as <-.
Qed.

Lemma emitFile_not_Diverge (c0 : compiler) : emitFile P cfg c0 <> Diverge.
Proof.
  unfold emitFile.
  destruct (existsSync P (output_path (output cfg)));
    [destruct (rmSync P (output_path (output cfg)))|]; simpl; try done;
    destruct (mkdirSync P (output_path (output cfg))); simpl; try done;
    destruct (writeFileSync P _ _); simpl; done.
Qed.

(** The exception of [emitFile] is the one of the first of its file-system
    calls that throws. *)
Lemma emitFile_Throw (c0 : compiler) (e : error) :
  emitFile P cfg c0 = Throw e ->
  (existsSync P (output_path (output cfg)) = true /\
   rmSync P (output_path (output cfg)) = Some e) \/
  mkdirSync P (output_path (output cfg)) = Some e \/
  writeFileSync P
    (join (path P) (output_path (output cfg)) (output_filename (output cfg)))
    (template (default "undefined" (entryId c0)) (gTemplate c0)) = Some e.
Proof.
  unfold emitFile. intros H.
  destruct (existsSync P (output_path (output cfg))) eqn:Hex.
  - destruct (rmSync P (output_path (output cfg))) as [e1|] eqn:Hrm; simpl in H.
    { injection H as ->. by left. }
    destruct (mkdirSync P (output_path (output cfg))) as [e2|] eqn:Hmk; simpl in H.
    { injection H as ->. right. by left. }
    rewrite get_set_eq in H. simpl in H.
    destruct (writeFileSync P _ _) as [e3|] eqn:Hw; simpl in H; [|done].
    injection H as ->. right. by right.
  - simpl in H.
    destruct (mkdirSync P (output_path (output cfg))) as [e2|] eqn:Hmk; simpl in H.
    { injection H as ->. right. by left. }
    rewrite get_set_eq in H. simpl in H.
    destruct (writeFileSync P _ _) as [e3|] eqn:Hw; simpl in H; [|done].
    injection H as ->. right. by right.
Qed.

Lemma emitFile_returns (c0 : compiler) :
  (exists c, emitFile P cfg c0 = Ok c) <->
  (existsSync P (output_path (output cfg)) = true ->
   rmSync P (output_path (output cfg)) = None) /\
  mkdirSync P (output_path (output cfg)) = None /\
  writeFileSync P
    (join (path P) (output_path (output cfg)) (output_filename (output cfg)))
    (template (default "undefined" (entryId c0)) (gTemplate c0)) = None.
Proof.
  pose proof (emitFile_Throw c0) as Hthrow.
  pose proof (emitFile_not_Diverge c0) as Hnd.
  split.
  - intros [c H]. rewrite H in Hthrow. unfold emitFile in H.
    destruct (existsSync P (output_path (output cfg))) eqn:Hex.
    + destruct (rmSync P (output_path (output cfg))) as [e1|] eqn:Hrm; [done|].
      simpl in H.
      destruct (mkdirSync P (output_path (output cfg))) as [e2|] eqn:Hmk; [done|].
      simpl in H. rewrite get_set_eq in H. simpl in H.
      by destruct (writeFileSync P _ _) as [e3|] eqn:Hw.
    + simpl in H.
      destruct (mkdirSync P (output_path (output cfg))) as [e2|] eqn:Hmk; [done|].
      simpl in H. rewrite get_set_eq in H. simpl in H.
      by destruct (writeFileSync P _ _) as [e3|] eqn:Hw.
  - intros (Hrm & Hmk & Hw).
    destruct (emitFile P cfg c0) as [c|e|]; [by exists c| |done].
    destruct (Hthrow e eq_refl) as [[Hex He]|[He|He]].
    + by rewrite (Hrm Hex) in He.
    + by rewrite Hmk in He.
    + by rewrite Hw in He.
Qed.

Lemma run_Ok (fuel : nat) (c : compiler) :
  run P cfg fuel = Ok c ->
  exists c0,
    buildModule P cfg fuel (entry_path P cfg) true constructor = Ok c0 /\
    c = set_asset
          (join (path P) (output_path (output cfg)) (output_filename (output cfg)))
          (template (default "undefined" (entryId c0)) (gTemplate c0)) c0.
Proof.
  rewrite run_eq. intros H. inv_bind H. exists a. split; [done|]. by apply emitFile_Ok.
Qed.

Lemma bundle_set_asset (c0 : compiler) (text : string) :
  bundle P cfg
    (set_asset
       (join (path P) (output_path (output cfg)) (output_filename (output cfg)))
       text c0)
  = Some text.
Proof. unfold bundle, set_asset. simpl. apply get_set_eq. Qed.


Lemma acyclic_terminates :
  acyclic P cfg -> exists fuel, forall n, fuel <= n -> run P cfg n <> Diverge.
Proof.
  intros Hac. exists (S (size (dom (files P)))). intros n Hn. rewrite run_eq.
  pose proof (bounded_not_Diverge P cfg n (entry_path P cfg) true constructor) as H.
  destruct (buildModule P cfg n (entry_path P cfg) true constructor) as [c0|e|];
    simpl; [apply emitFile_not_Diverge|done|].
  apply H. intros l Hl. apply acyclic_chain_length in Hl; [lia|done].
Qed.

Lemma circular_diverges :
  circular P cfg -> loadable P cfg -> forall fuel, run P cfg fuel = Diverge.
Proof.
  intros Hcyc Hload fuel. rewrite run_eq.
  destruct (buildModule P cfg fuel (entry_path P cfg) true constructor)
    as [c|e|] eqn:Hb; [| |done].
  - destruct (circular_chains P cfg Hcyc fuel) as (l & Hl & Hn).
    pose proof (Ok_bounded P cfg fuel _ _ _ _ Hb l Hl). lia.
  - by destruct (loadable_no_Throw P cfg fuel (entry_path P cfg) true constructor Hload e).
Qed.

(** X9. After a completed build, a dependency id of a reachable module is
    a key of the module graph whenever [buildModule] computes the same id back
    from the path it builds for it. *)
Lemma dependency_is_key (fuel : nat) (c : compiler) (p source dep : string) (r : parsed) :
  run P cfg fuel = Ok c ->
  rtc (references P cfg) (entry_path P cfg) p ->
  readSource P cfg p = Ok source ->
  parse P source (dirname (path P) (module_id P p)) = Ok r ->
  dep ∈ dependencies r ->
  module_id P (join (path P) (root P) dep) = dep ->
  dep ∈ keys (modules c).
Proof.
  intros (c0 & Hb & ->)%run_Ok Hp Hs Hr Hdep Hid. simpl. rewrite <- Hid.
  eapply buildModule_reachable_keys; [exact Hb|].
  eapply rtc_r; [exact Hp|].
  exists (map (join (path P) (root P)) (dependencies r)). split.
  - apply load_Ok. by exists source, r.
  - apply list_elem_of_fmap. by exists dep.
Qed.

Lemma gTemplate_arr_pairs (c : compiler) :
  NoDup (keys (modules c)) ->
  gTemplate_arr c =
  map (fun kv : string * string =>
         factory kv.1
           (if bool_decide (Some kv.1 = entryId c) then "__webpack_require__"
            else EmptyString)
           kv.2)
      (modules c).
Proof.
  intros Hn. unfold gTemplate_arr, keys. rewrite map_map.
  apply map_ext_in. intros [k v] Hin%list_elem_of_In. simpl.
  by rewrite (get_elem_of _ _ _ Hn Hin).
Qed.


End Whole.

(** C3, as amended. If the module-reference relation of the input has no
    circular chain reachable from the entry, the recursive build terminates:
    from some fuel on [run] returns or throws.  If it has one, and every module
    reachable from the entry can be read, transformed and parsed, the recursion
    does not terminate: [run] is still recursing whatever the fuel (there is no
    cycle guard and no deduplication). *)
Theorem build_terminates_unless_circular (P : platform) (cfg : config) :
  (acyclic P cfg -> exists fuel, forall n, fuel <= n -> run P cfg n <> Diverge) /\
  (circular P cfg -> loadable P cfg -> forall fuel, run P cfg fuel = Diverge).
Proof. split; [apply acyclic_terminates|apply circular_diverges]. Qed.


(** C7. In the bundle of a completed build the object literal passed to
    the loader holds the module factories and nothing else; they are, in order,
    one for each (id, source) pair of the module graph, each keyed by the id in
    double quotes and evaluating the source; the ids are pairwise distinct; and
    the third parameter of a factory is named __webpack_require__ exactly when
    its id is the entry id: every other factory has the parameter list
    (module, exports, ) without it. *)
Theorem one_factory_per_module (P : platform) (cfg : config) (fuel : nat) (c : compiler) :
  run P cfg fuel = Ok c ->
  NoDup (keys (modules c)) /\
  gTemplate_arr c =
    map (fun kv : string * string =>
           String (ascii_of_nat 34)
             (kv.1 ++ String (ascii_of_nat 34)
                (": function (module, exports, "
                 ++ (if bool_decide (Some kv.1 = entryId c) then "__webpack_require__"
                     else EmptyString)
                 ++ ") {
          eval(`" ++ kv.2 ++ "`);
        },")))
        (modules c) /\
  exists loader,
    bundle P cfg c =
      Some (loader ++ "));
    })({
      "
              ++ String.concat EmptyString (gTemplate_arr c) ++ "
    });
    ").
Proof.
  intros (c0 & Hb & ->)%run_Ok.
  apply buildModule_entry in Hb as (_ & _ & Hn).
  assert (Hk : NoDup (keys (modules c0))) by (apply Hn, NoDup_nil_2).
  split; [done|]. split.
  - change (gTemplate_arr (set_asset ?m ?t c0)) with (gTemplate_arr c0).
    rewrite (gTemplate_arr_pairs c0 Hk). apply map_ext. intros [k v]. simpl.
    unfold factory. by rewrite quoted_app.
  - rewrite bundle_set_asset.
    exists (template_head ++ quoted (default "undefined" (entryId c0))).
    unfold template. rewrite string_append_assoc. reflexivity.
Qed.


(** ** The demo projects *)

Ltac list_cases H :=
  repeat (apply elem_of_cons in H as [H|H]); [..|by apply elem_of_nil in H].

Lemma host_readable (fs : list (string * string)) (cfg : config) (p q : string) :
  references (Demo.host fs) cfg p q -> exists content, (p, content) ∈ fs.
Proof.
  intros [content H]%references_readable. exists content.
  by apply elem_of_list_to_map_2 in H.
Qed.

Lemma diamond_references (p q : string) :
  references Demo.diamond (Demo.settings "src/index.js" None) p q ->
  Demo.rank q < Demo.rank p.
Proof.
  intros H. destruct (host_readable _ _ _ _ H) as [content Hp].
  destruct H as (l & Hl & Hq).
  list_cases Hp; injection Hp as -> ->; vm_compute in Hl; injection Hl as <-;
    list_cases Hq; subst q; vm_compute; lia.
Qed.

Lemma diamond_tc (p q : string) :
  tc (references Demo.diamond (Demo.settings "src/index.js" None)) p q ->
  Demo.rank q < Demo.rank p.
Proof.
  induction 1 as [p q H|p q r H _ IH].
  - by apply diamond_references.
  - apply diamond_references in H. lia.
Qed.

Lemma diamond_acyclic : acyclic Demo.diamond (Demo.settings "src/index.js" None).
Proof. intros p _ H%diamond_tc. lia. Qed.

Lemma circular_index_a :
  references Demo.circular (Demo.settings "index.js" None) "/proj/index.js" "/proj/a.js".
Proof. exists ["/proj/a.js"]. split; [by vm_compute|]. by left. Qed.

Lemma circular_a_index :
  references Demo.circular (Demo.settings "index.js" None) "/proj/a.js" "/proj/index.js".
Proof. exists ["/proj/index.js"]. split; [by vm_compute|]. by left. Qed.

Lemma circular_is_circular : circular Demo.circular (Demo.settings "index.js" None).
Proof.
  exists "/proj/index.js". split; [apply rtc_refl|].
  eapply tc_l; [apply circular_index_a|]. apply tc_once, circular_a_index.
Qed.

Lemma circular_reachable (p : string) :
  rtc (references Demo.circular (Demo.settings "index.js" None))
      (entry_path Demo.circular (Demo.settings "index.js" None)) p ->
  p = "/proj/index.js" \/ p = "/proj/a.js".
Proof.
  revert p. apply (rtc_ind_r (fun p => p = "/proj/index.js" \/ p = "/proj/a.js"));
    [by left|]. intros q r _ Hqr IH.
  destruct (host_readable _ _ _ _ Hqr) as [content Hq].
  destruct Hqr as (l & Hl & Hr).
  list_cases Hq; injection Hq as -> ->; vm_compute in Hl; injection Hl as <-;
    list_cases Hr; subst r; auto.
Qed.

Lemma circular_is_loadable : loadable Demo.circular (Demo.settings "index.js" None).
Proof.
  intros p [->| ->]%circular_reachable; eexists; by vm_compute.
Qed.

(** ** Witnesses and counterexamples *)

(** The entry of [diamond] has its second call of require, at position
    [0; 1; 0], rewritten to the canonical id ./src/lib/b.js, which is in the
    dependency list. *)
Lemma reached_require_is_rewritten_witness :
  exists r ast',
    parse Demo.diamond "require('./a'); require('./lib/b');" "./src" = Ok r /\
    sourceCode r = generator Demo.diamond ast' /\
    subterm ast' [0; 1; 0] =
      Some (CallExpression (Identifier "__webpack_require__")
              [StringLiteral "./src/lib/b.js"]) /\
    "./src/lib/b.js" ∈ dependencies r.
Proof.
  destruct (reached_require_is_rewritten Demo.diamond
              "require('./a'); require('./lib/b');" "./src"
              (Demo.program [Demo.require_call "./a"; Demo.require_call "./lib/b"])
              [0; 1; 0] "./lib/b" [] eq_refl eq_refl eq_refl) as [H1 H2].
  destruct (H2 eq_refl) as [r Hr].
  destruct (H1 r Hr) as (ast' & Hs & Hp & Hd).
  exists r, ast'. split; [exact Hr|]. split; [exact Hs|]. split; [exact Hp|exact Hd].
Defined.

(** C1 as stated fails. The source of [nested] contains the call
    require("b") with a string literal, as the second argument of another call
    of require; [parse] returns, and the canonical id ./b.js of that call is
    not in the dependency list (the call is dropped with the argument). *)
Lemma nested_require_is_not_rewritten :
  exists ast r,
    babylon_parse Demo.nested "require('a', require('b'));" = Some ast /\
    subterm ast [0; 0; 0; 2] = Some (Demo.require_call "b") /\
    parse Demo.nested "require('a', require('b'));" "." = Ok r /\
    dependencies r = ["./a.js"] /\
    canonical_id Demo.nested "." "b" = "./b.js" /\
    "./b.js" ∉ dependencies r.
Proof.
  eexists _, _. split; [reflexivity|]. split; [reflexivity|].
  split; [vm_compute; reflexivity|]. split; [reflexivity|].
  split; [by vm_compute|].
  simpl. intros H. list_cases H. discriminate.
Qed.

(** C2 fails on [detour]. The build completes; the dependency list of
    index.js is [./../proj/x.js]; the keys of the module graph are ./index.js
    and ./x.js, so the id that index.js requires at run time is no key. *)
Theorem detour_dependency_is_no_key :
  exists c r,
    run Demo.detour (Demo.settings "index.js" None) 3 = Ok c /\
    load Demo.detour (Demo.settings "index.js" None) "/proj/index.js" = Ok ["/proj/x.js"] /\
    parse Demo.detour "require('../proj/x.js');" "." = Ok r /\
    dependencies r = ["./../proj/x.js"] /\
    keys (modules c) = ["./index.js"; "./x.js"] /\
    "./../proj/x.js" ∉ keys (modules c).
Proof.
  eexists _, _. split; [vm_compute; reflexivity|]. split; [by vm_compute|].
  split; [vm_compute; reflexivity|]. split; [reflexivity|].
  split; [reflexivity|].
  simpl. intros H. list_cases H; discriminate.
Qed.

(** The build of [diamond] ends and the build of [circular] never does. *)
Lemma build_terminates_unless_circular_witness :
  (exists fuel, forall n, fuel <= n ->
     run Demo.diamond (Demo.settings "src/index.js" None) n <> Diverge) /\
  (forall fuel, run Demo.circular (Demo.settings "index.js" None) fuel = Diverge).
Proof.
  split.
  - exact (proj1 (build_terminates_unless_circular
                    Demo.diamond (Demo.settings "src/index.js" None))
                 diamond_acyclic).
  - exact (proj2 (build_terminates_unless_circular
                    Demo.circular (Demo.settings "index.js" None))
                 circular_is_circular circular_is_loadable).
Defined.

(** C3 as stated fails. [broken] contains a circular reference chain that
    is reachable from the entry (a.js requires itself), and its build
    terminates: the missing file required first aborts it. *)
Lemma circular_input_that_terminates :
  circular Demo.broken (Demo.settings "index.js" None) /\
  run Demo.broken (Demo.settings "index.js" None) 2 = Throw (ENOENT "/proj/missing.js") /\
  run Demo.broken (Demo.settings "index.js" None) 9 = Throw (ENOENT "/proj/missing.js").
Proof.
  split; [|split; by vm_compute].
  exists "/proj/a.js". split.
  - apply rtc_once. exists ["/proj/missing.js"; "/proj/a.js"].
    split; [by vm_compute|]. right. by left.
  - apply tc_once. exists ["/proj/a.js"]. split; [by vm_compute|]. by left.
Qed.



(** C5 fails on a rule with an empty chain. The file is read, the chain
    of the matching rule is empty, so the transformed text would be the text of
    the file; [readSource] throws instead. *)
Theorem empty_chain_throws :
  readFileSync Demo.diamond "/proj/src/lib/b.js" = Ok "exports.b = 'b';" /\
  rules Demo.empty_chain = Some [ {| test := Demo.ends_with_js; use := [] |} ] /\
  transformed Demo.diamond [ {| test := Demo.ends_with_js; use := [] |} ]
    "/proj/src/lib/b.js" "exports.b = 'b';" = "exports.b = 'b';" /\
  readSource Demo.diamond (Demo.settings "src/index.js" (Some Demo.empty_chain))
    "/proj/src/lib/b.js" = Throw TypeError.
Proof. repeat split; by vm_compute. Qed.

(** The module a.js of [diamond] requires lib/b twice, and its id is
    listed twice. *)
Lemma dependencies_in_traversal_order_witness :
  exists r,
    parse Demo.diamond "require('./lib/b'); require('./lib/b');" "./src" = Ok r /\
    dependencies r = ["./src/lib/b.js"; "./src/lib/b.js"].
Proof.
  destruct (dependencies_in_traversal_order Demo.diamond
              "require('./lib/b'); require('./lib/b');" "./src"
              (Demo.program [Demo.require_call "./lib/b"; Demo.require_call "./lib/b"])
              eq_refl) as [H1 H2].
  destruct (H2 eq_refl) as [r Hr]. exists r. split; [exact Hr|].
  rewrite (H1 r Hr). by vm_compute.
Defined.

(** The factories of the bundle of [diamond]: three, the first with the
    loader as third parameter; the text of the second names the loader
    although its factory does not. *)
Lemma one_factory_per_module_witness :
  exists c,
    run Demo.diamond (Demo.settings "src/index.js" None) 3 = Ok c /\
    keys (modules c) = ["./src/index.js"; "./src/a.js"; "./src/lib/b.js"] /\
    NoDup (keys (modules c)) /\
    gTemplate_arr c =
      [ factory "./src/index.js" "__webpack_require__"
          (Demo.print (Demo.program [Demo.loader_call "./src/a.js";
                                     Demo.loader_call "./src/lib/b.js"]));
        factory "./src/a.js" EmptyString
          (Demo.print (Demo.program [Demo.loader_call "./src/lib/b.js";
                                     Demo.loader_call "./src/lib/b.js"]));
        factory "./src/lib/b.js" EmptyString
          (Demo.print (Demo.program [Demo.export "b" "b"])) ] /\
    exists loader,
      bundle Demo.diamond (Demo.settings "src/index.js" None) c =
        Some (loader ++ template_mid
                ++ String.concat EmptyString (gTemplate_arr c) ++ template_tail).
Proof.
  eexists. split; [vm_compute; reflexivity|]. split; [reflexivity|].
  destruct (one_factory_per_module Demo.diamond (Demo.settings "src/index.js" None) 3 _
              ltac:(vm_compute; reflexivity)) as (H1 & H2 & H3).
  split; [exact H1|]. split; [rewrite H2; vm_compute; reflexivity|exact H3].
Defined.

(** The entry of the demo bundle is loaded from the initial state: a
    has run once although it was required twice, the entry has run once, and
    the call of a for the entry, which was being loaded, got its exports
    without starting it again. *)
Lemma loader_runs_each_factory_at_most_once_witness :
  exists v s',
    Runtime.__webpack_require__ nat 0 1 Demo.factories 3 "./index.js" (Runtime.initial nat) =
      Runtime.Returned v s' /\
    v = 7 /\
    Runtime.executed nat s' = ["./a.js"; "./index.js"] /\
    Runtime.consistent nat s' /\
    (exists m, Runtime.installedModules nat s' !! "./index.js" = Some m /\
               Runtime.l nat m = true /\ Runtime.exports nat m = v) /\
    count_occ string_dec (Runtime.executed nat s') "./index.js" = 1.
Proof.
  destruct (RuntimeFacts.loader_runs_each_factory_at_most_once nat 0 1 Demo.factories 2 "./index.js"
              (Runtime.initial nat) (RuntimeFacts.consistent_initial nat) eq_refl) as (_ & H & _).
  specialize (H eq_refl).
  destruct (Runtime.__webpack_require__ nat 0 1 Demo.factories 3 "./index.js"
              (Runtime.initial nat)) as [v s'|s'|] eqn:E.
  - exists v, s'. split; [reflexivity|].
    destruct H as (H1 & H2 & _ & H3).
    vm_compute in E. injection E as <- <-.
    split; [reflexivity|]. split; [reflexivity|].
    split; [exact H1|]. split; [exact H2|exact H3].
  - vm_compute in E. discriminate E.
  - vm_compute in E. discriminate E.
Defined.

(** Two matching rules on lib/b.js: the second loader of the first chain
    runs first, then the first, then the chain of the second rule. *)
Example readSource_two_rules :
  readSource Demo.diamond (Demo.settings "src/index.js" (Some Demo.two_rules))
    "/proj/src/lib/b.js" =
  Ok (Demo.banner (Demo.banner (Demo.behead "exports.b = 'b';"))).
Proof. by vm_compute. Qed.

(** * Further properties *)

(** ** What [parse] returns and when it throws *)

Section ParseOutcome.

Variable P : platform.
Variable parentPath : string.

Lemma no_require_all_fix (l : list node) :
  (fix no_require_all (l : list node) : bool :=
     match l with
     | [] => true
     | c :: l' => no_require c && no_require_all l'
     end) l = no_require_all l.
Proof. induction l as [|c l IH]; simpl; [done|]. by rewrite IH. Qed.

Lemma no_require_CallExpression callee arguments :
  no_require (CallExpression callee arguments) =
  negb (callee_is_require callee) && no_require callee && no_require_all arguments.
Proof. simpl. by rewrite no_require_all_fix. Qed.

Lemma no_require_Other type children :
  no_require (Other type children) = no_require_all children.
Proof. simpl. by rewrite no_require_all_fix. Qed.

Lemma supported_CallExpression callee arguments :
  supported (CallExpression callee arguments) =
  if callee_is_require callee then
    match arguments with
    | StringLiteral _ :: _ => true
    | _ => false
    end
  else supported callee && supported_all arguments.
Proof. simpl. by rewrite supported_all_fix. Qed.

Lemma supported_Other type children :
  supported (Other type children) = supported_all children.
Proof. simpl. by rewrite supported_all_fix. Qed.

(** The traversal throws a TypeError on every tree that is not supported. *)
Lemma traverse_all_unsupported (l : list node) :
  Forall (fun n => supported n = false ->
            forall deps, traverse P parentPath n deps = Throw TypeError) l ->
  supported_all l = false ->
  forall deps, traverse_all P parentPath l deps = Throw TypeError.
Proof.
  induction 1 as [|x l Hx _ IH]; intros Hs deps; simpl in *; [done|].
  destruct (supported x) eqn:Hsx; simpl in Hs.
  - destruct (traverse_returns P parentPath x Hsx deps) as [[x' d] ->]. simpl.
    by rewrite IH.
  - by rewrite Hx.
Qed.

Lemma traverse_unsupported (n : node) :
  supported n = false ->
  forall deps, traverse P parentPath n deps = Throw TypeError.
Proof.
  induction n as [name|value|callee arguments IHc IHa|type children IH]
    using node_induction; intros Hs deps; try done.
  - rewrite traverse_CallExpression. rewrite supported_CallExpression in Hs.
    unfold visitor. destruct (callee_is_require callee) eqn:Hreq.
    + by destruct arguments as [|[name|x|c a|t c] rest].
    + simpl. destruct (supported callee) eqn:Hsc; simpl in Hs.
      * destruct (traverse_returns P parentPath callee Hsc deps) as [[c' d] ->]. simpl.
        by rewrite (traverse_all_unsupported arguments IHa Hs).
      * by rewrite IHc.
  - rewrite traverse_Other. rewrite supported_Other in Hs.
    by rewrite (traverse_all_unsupported children IH Hs).
Qed.

(** The traversal does not turn a callee into the identifier require. *)
Lemma traverse_callee (n n' : node) (deps deps' : list string) :
  traverse P parentPath n deps = Ok (n', deps') ->
  callee_is_require n = false -> callee_is_require n' = false.
Proof.
  destruct n as [name|value|callee arguments|type children]; intros H Hn.
  - simpl in H. by injection H as <- <-.
  - simpl in H. by injection H as <- <-.
  - rewrite traverse_CallExpression in H. inv_bind H.
    destruct a as [[[c' a'] d]|].
    + by injection H as <- <-.
    + inv_bind H. destruct a as [c' d1]. inv_bind H. destruct a as [a' d2].
      by injection H as <- <-.
  - rewrite traverse_Other in H. inv_bind H. destruct a as [c' d1].
    by injection H as <- <-.
Qed.

(** The tree that the traversal returns has no call of require left. *)
Lemma traverse_all_no_require (l : list node) :
  Forall (fun n => forall deps n' deps',
            traverse P parentPath n deps = Ok (n', deps') -> no_require n' = true) l ->
  forall deps l' deps',
    traverse_all P parentPath l deps = Ok (l', deps') -> no_require_all l' = true.
Proof.
  induction 1 as [|x l Hx _ IH]; intros deps l' deps' H; simpl in H.
  - by injection H as <- <-.
  - inv_bind H. destruct a as [x' d1]. inv_bind H. destruct a as [l'' d2].
    injection H as <- <-. simpl. by rewrite (Hx _ _ _ Ha), (IH _ _ _ Ha0).
Qed.

Lemma traverse_no_require (n : node) :
  forall deps n' deps',
    traverse P parentPath n deps = Ok (n', deps') -> no_require n' = true.
Proof.
  induction n as [name|value|callee arguments IHc IHa|type children IH]
    using node_induction; intros deps n' deps' H.
  - simpl in H. by injection H as <- <-.
  - simpl in H. by injection H as <- <-.
  - rewrite traverse_CallExpression in H.
    destruct (callee_is_require callee) eqn:Hreq.
    + unfold visitor in H. rewrite Hreq in H.
      destruct arguments as [|[name|x|c a|t c] rest]; try discriminate.
      simpl in H. by injection H as <- <-.
    + rewrite visitor_not_require in H by done. simpl in H.
      inv_bind H. destruct a as [c' d1]. inv_bind H. destruct a as [a' d2].
      injection H as <- <-. rewrite no_require_CallExpression.
      rewrite (traverse_callee _ _ _ _ Ha Hreq), (IHc _ _ _ Ha),
        (traverse_all_no_require _ IHa _ _ _ Ha0). done.
  - rewrite traverse_Other in H. inv_bind H. destruct a as [c' d1].
    injection H as <- <-. rewrite no_require_Other.
    by eapply traverse_all_no_require.
Qed.

(** The traversal returns a tree without a call of require as it is. *)
Lemma traverse_all_untouched (l : list node) :
  Forall (fun n => no_require n = true ->
            forall deps, traverse P parentPath n deps = Ok (n, deps)) l ->
  no_require_all l = true ->
  forall deps, traverse_all P parentPath l deps = Ok (l, deps).
Proof.
  induction 1 as [|x l Hx _ IH]; intros Hn deps; simpl in *; [done|].
  apply andb_prop in Hn as [Hn1 Hn2].
  rewrite (Hx Hn1). simpl. by rewrite (IH Hn2).
Qed.

Lemma traverse_untouched (n : node) :
  no_require n = true ->
  forall deps, traverse P parentPath n deps = Ok (n, deps).
Proof.
  induction n as [name|value|callee arguments IHc IHa|type children IH]
    using node_induction; intros Hn deps; try done.
  - rewrite traverse_CallExpression. rewrite no_require_CallExpression in Hn.
    apply andb_prop in Hn as [[Hreq Hc]%andb_prop Ha].
    apply negb_true_iff in Hreq. rewrite visitor_not_require by done. simpl.
    rewrite (IHc Hc). simpl. by rewrite (traverse_all_untouched arguments IHa Ha).
  - rewrite traverse_Other. rewrite no_require_Other in Hn.
    by rewrite (traverse_all_untouched children IH Hn).
Qed.

End ParseOutcome.

Lemma parse_dependencies (P : platform) (source parentPath : string)
    (ast : node) (r : parsed) :
  babylon_parse P source = Some ast ->
  parse P source parentPath = Ok r ->
  dependencies r = map (canonical_id P parentPath) (required_in_order ast).
Proof.
  intros Hp (ast0 & ast' & Hp' & Ht & Hc)%parse_Ok.
  rewrite Hp in Hp'. injection Hp' as <-.
  apply traverse_appends in Ht. by rewrite Ht, required_in_order_required.
Qed.

(** X3. [parse] has three outcomes, decided by the parser and by the calls
    of require that the traversal enters: a SyntaxError when babylon rejects
    the source; a TypeError when some entered call of require has no string
    literal as first argument (no argument, a variable, a template, ...); and
    otherwise the dependency list in traversal order. *)
Theorem parse_outcome (P : platform) (source parentPath : string) :
  match babylon_parse P source with
  | None => parse P source parentPath = Throw SyntaxError
  | Some ast =>
      if supported ast
      then exists r, parse P source parentPath = Ok r /\
                     dependencies r =
                       map (canonical_id P parentPath) (required_in_order ast)
      else parse P source parentPath = Throw TypeError
  end.
Proof.
  destruct (babylon_parse P source) as [ast|] eqn:Hp.
  - destruct (supported ast) eqn:Hs.
    + destruct (parse_returns P source parentPath ast Hp Hs) as [r Hr].
      exists r. split; [done|].
      by apply (parse_dependencies P source parentPath ast r Hp).
    + unfold parse. rewrite Hp. by rewrite traverse_unsupported.
  - unfold parse. by rewrite Hp.
Qed.

(** X4. The tree that [parse] prints has no call of the bare identifier
    require left, at any depth: the calls entered are renamed, and the calls
    inside their arguments are gone with the arguments.  Rewriting the printed
    tree once more changes nothing and finds no dependency. *)
Theorem rewritten_source_has_no_require
    (P : platform) (source parentPath : string) (r : parsed) :
  parse P source parentPath = Ok r ->
  exists ast',
    sourceCode r = generator P ast' /\
    no_require ast' = true /\
    forall parentPath' deps, traverse P parentPath' ast' deps = Ok (ast', deps).
Proof.
  intros (ast & ast' & Hp & Ht & Hs)%parse_Ok.
  exists ast'. split; [done|].
  pose proof (traverse_no_require P parentPath ast _ _ _ Ht) as Hn.
  split; [done|]. intros parentPath' deps. by apply traverse_untouched.
Qed.

(** X5. A module without a call of require is printed from the tree that
    the parser returned, untouched, and has no dependencies. *)
Theorem module_without_require_is_untouched
    (P : platform) (source parentPath : string) (ast : node) :
  babylon_parse P source = Some ast ->
  no_require ast = true ->
  parse P source parentPath =
  Ok {| sourceCode := generator P ast; dependencies := [] |}.
Proof.
  intros Hp Hn. unfold parse. rewrite Hp.
  by rewrite (traverse_untouched P parentPath ast Hn).
Qed.

(** ** The shape of the ids *)

Lemma replace_backslashes_clean (s : string) :
  has_backslash (replace_backslashes s) = false.
Proof.
  induction s as [|c s IH]; simpl; [done|]. rewrite IH, orb_false_r.
  destruct (Ascii.eqb c backslash) eqn:E; [done|exact E].
Qed.

Lemma normalizePath_shape (p : string) : is_module_id (normalizePath p).
Proof.
  rewrite normalizePath_eq. eexists. split; [done|apply replace_backslashes_clean].
Qed.

Lemma canonical_id_shape (P : platform) (parentDir X : string) :
  is_module_id (canonical_id P parentDir X).
Proof. eexists. split; [done|apply replace_backslashes_clean]. Qed.

(** ** How [readSource] fails *)

Lemma forEach_Throw {A S : Type} (l : list A) (f : A -> S -> outcome S) :
  forall s e, forEach l f s = Throw e -> exists x s0, x ∈ l /\ f x s0 = Throw e.
Proof.
  induction l as [|x l IH]; intros s e H; simpl in H; [done|].
  destruct (f x s) as [s'|e'|] eqn:Hx; simpl in H; [| |done].
  - destruct (IH _ _ H) as (y & s0 & Hy & Hf). exists y, s0. split; [by right|done].
  - injection H as ->. exists x, s. split; [by left|done].
Qed.

Lemma forEach_invariant_in {A S : Type} (I : S -> Prop) (l : list A)
    (f : A -> S -> outcome S) :
  (forall x s s', x ∈ l -> I s -> f x s = Ok s' -> I s') ->
  forall s s', I s -> forEach l f s = Ok s' -> I s'.
Proof.
  induction l as [|x l IH]; intros Hf s s' Hs H; simpl in *.
  - by injection H as <-.
  - inv_bind H. eapply IH; [|by eapply Hf; [left|..]|done].
    intros y t t' Hy. apply Hf. by right.
Qed.

Section ReadSourceFailures.

Variable P : platform.
Variable cfg : config.

Lemma loader_Throw (use : list string) (len : nat) :
  len < length use ->
  forall content e,
    loader P use len content = Throw e ->
    exists name, name ∈ use /\ require P name = None /\ e = MODULE_NOT_FOUND name.
Proof.
  induction len as [|len IH]; intros Hlen content e H.
  - destruct (lookup_lt_is_Some_2 use 0 Hlen) as [name Hname].
    cbn [loader] in H. rewrite Hname in H.
    destruct (require P name) as [f|] eqn:Hf; [done|]. injection H as <-.
    exists name. split; [by eapply list_elem_of_lookup_2|done].
  - destruct (lookup_lt_is_Some_2 use (S len) Hlen) as [name Hname].
    cbn [loader] in H. rewrite Hname in H.
    destruct (require P name) as [f|] eqn:Hf.
    + eapply IH; [lia|exact H].
    + injection H as <-. exists name. split; [by eapply list_elem_of_lookup_2|done].
Qed.

Lemma apply_rule_Throw (p : string) (r : rule) (content : string) (e : error) :
  apply_rule P p r content = Throw e ->
  test r p = true /\
  ((use r = [] /\ e = TypeError) \/
   exists name, name ∈ use r /\ require P name = None /\ e = MODULE_NOT_FOUND name).
Proof.
  unfold apply_rule. destruct (test r p); [|done]. intros H. split; [done|].
  destruct (use r) as [|name use] eqn:Hu.
  - left. simpl in H. by injection H as <-.
  - right. assert (Hlen : (Z.of_nat (length (name :: use)) - 1 <? 0)%Z = false).
    { apply Z.ltb_ge. simpl length. lia. }
    rewrite Hlen in H. eapply loader_Throw; [|exact H]. simpl length. lia.
Qed.

End ReadSourceFailures.

(** X1. [readSource] returns the text of the file when there is no
    [config.module]; with rules, if every rule that matches the path has a
    chain that is not empty and names installed loaders, it returns the text
    run through the chains of the matching rules in the order of the rules,
    each chain from its last loader to its first.  Rules that do not match are
    not looked at: their loaders need not exist. *)
Theorem readSource_runs_chains_last_to_first
    (P : platform) (cfg : config) (p content : string) :
  files P !! p = Some content ->
  (module cfg = None -> readSource P cfg p = Ok content) /\
  (forall m rs,
     module cfg = Some m -> rules m = Some rs ->
     (forall r, r ∈ rs -> test r p = true ->
        use r <> [] /\ forall name, name ∈ use r -> is_Some (require P name)) ->
     readSource P cfg p = Ok (transformed P rs p content)).
Proof.
  intros Hf. pose proof (readSource_applies_chains P cfg p content Hf) as H.
  split.
  - intros Hm. by rewrite Hm in H.
  - intros m rs Hm Hrs Hall. rewrite Hm in H. by apply H.
Qed.

(** X2. [readSource] fails in three ways only: ENOENT for the path when
    the file cannot be read; a TypeError when [config.module] has no rules, or
    when a rule that matches the path has an empty chain; and MODULE_NOT_FOUND
    for a loader that is named by a matching rule and is not installed. *)
Theorem readSource_failures (P : platform) (cfg : config) (p : string) (e : error) :
  readSource P cfg p = Throw e ->
  (files P !! p = None /\ e = ENOENT p) \/
  (is_Some (files P !! p) /\
   exists m, module cfg = Some m /\
     ((rules m = None /\ e = TypeError) \/
      exists rs r, rules m = Some rs /\ r ∈ rs /\ test r p = true /\
        ((use r = [] /\ e = TypeError) \/
         exists name, name ∈ use r /\ require P name = None /\
                      e = MODULE_NOT_FOUND name))).
Proof.
  unfold readSource, readFileSync.
  destruct (files P !! p) as [content|] eqn:Hf; simpl.
  2:{ intros H. injection H as <-. by left. }
  intros H. right. split; [done|].
  destruct (module cfg) as [m|]; [|done]. exists m. split; [done|].
  destruct (rules m) as [rs|].
  2:{ injection H as <-. by left. }
  right. apply forEach_Throw in H as (r & s0 & Hr & H).
  apply apply_rule_Throw in H as [Ht H]. by exists rs, r.
Qed.

(** ** The module graph of a build *)

Section Graph.

Variable P : platform.
Variable cfg : config.

Local Abbreviation R := (references P cfg).
Local Abbreviation entry_file := (entry_path P cfg).

Lemma rewritten_load (q : string) (r : parsed) :
  rewritten P cfg q = Ok r ->
  load P cfg q = Ok (map (join (path P) (root P)) (dependencies r)).
Proof.
  unfold rewritten. intros H. inv_bind H. apply load_Ok. by exists a, r.
Qed.

(** What the build keeps true of the module graph, if each assignment of a
    reachable module's rewritten source keeps it. *)
Lemma buildModule_graph_invariant (I : object string -> Prop) :
  (forall q r o, rtc R entry_file q -> rewritten P cfg q = Ok r ->
                 I o -> I (set (module_id P q) (sourceCode r) o)) ->
  forall n p isEntry c c',
    rtc R entry_file p -> I (modules c) ->
    buildModule P cfg n p isEntry c = Ok c' -> I (modules c').
Proof.
  intros HI. induction n as [|n IH]; intros p isEntry c c' Hp Hc H; [done|].
  rewrite buildModule_S in H. inv_bind H. inv_bind H.
  assert (Hr : rewritten P cfg p = Ok a0).
  { unfold rewritten. rewrite Ha. exact Ha0. }
  eapply (forEach_invariant_in (fun c0 => I (modules c0))); [| |exact H].
  - intros dep s s' Hdep Hs Hb. eapply IH; [|exact Hs|exact Hb].
    eapply rtc_r; [exact Hp|].
    exists (map (join (path P) (root P)) (dependencies a0)).
    split; [by apply rewritten_load|]. apply list_elem_of_fmap. by exists dep.
  - simpl. apply HI; [done|done|]. by destruct isEntry.
Qed.

Lemma elem_of_set {V : Type} (k : string) (v : V) (o : object V) (x : string * V) :
  x ∈ set k v o -> x = (k, v) \/ x ∈ o.
Proof.
  induction o as [|[k' v'] o IH]; simpl.
  - intros ->%list_elem_of_singleton. by left.
  - destruct (String.eqb k' k).
    + intros [->|H]%elem_of_cons; [by left|]. right. by right.
    + intros [->|H]%elem_of_cons; [right; by left|].
      destruct (IH H) as [->|?]; [by left|]. right. by right.
Qed.

Lemma first_set {V : Type} (k0 k : string) (v0 v : V) (o : object V) :
  exists v1 o1, set k v ((k0, v0) :: o) = (k0, v1) :: o1.
Proof.
  simpl. destruct (String.eqb k0 k) eqn:E.
  - apply String.eqb_eq in E as ->. by eexists _, _.
  - by eexists _, _.
Qed.

(** When a call returns, every module reachable from its path was loaded. *)
Lemma buildModule_Ok_loadable (n : nat) :
  forall p isEntry c c',
    buildModule P cfg n p isEntry c = Ok c' ->
    forall q, rtc R p q -> exists l, load P cfg q = Ok l.
Proof.
  induction n as [|n IH]; intros p isEntry c c' H q Hq; [done|].
  pose proof (buildModule_load P cfg n p isEntry c) as Hstep.
  destruct (load P cfg p) as [l| |] eqn:Hl; [|by rewrite Hstep in H|done].
  apply rtc_inv in Hq as [<-|(q0 & (l0 & Hl0 & Hin) & Hq)]; [by eexists|].
  rewrite Hl in Hl0. injection Hl0 as <-.
  destruct Hstep as [c0 Hstep]. rewrite Hstep in H.
  destruct (forEach_Ok_each _ _ _ _ _ H Hin) as (s1 & s2 & Hs).
  by eapply IH.
Qed.

End Graph.

(** The keys of the module graph of a completed build have the shape of
    the ids of [normalizePath]. *)
Lemma keys_have_module_shape (P : platform) (cfg : config) (fuel : nat) (c : compiler) :
  run P cfg fuel = Ok c -> Forall is_module_id (keys (modules c)).
Proof.
  intros (c0 & Hb & ->)%run_Ok. simpl.
  eapply (buildModule_graph_invariant P cfg
            (fun o => Forall is_module_id (keys o)));
    [|apply rtc_refl| |exact Hb]; [|by apply Forall_nil_2].
  intros q r o _ _ Ho. rewrite keys_set. case_bool_decide; [done|].
  apply Forall_app. split; [done|].
  apply Forall_singleton, normalizePath_shape.
Qed.

(** X6. Every id that the compiler makes has the shape that
    [normalizePath] gives it: ./ followed by a text without backslash.  This
    holds for each dependency id that [parse] returns and, after a completed
    build, for each key of the module graph and for the entry id. *)
Theorem ids_start_with_dot_slash (P : platform) (cfg : config) :
  (forall source parentPath r,
     parse P source parentPath = Ok r -> Forall is_module_id (dependencies r)) /\
  (forall fuel c,
     run P cfg fuel = Ok c ->
     Forall is_module_id (keys (modules c)) /\
     exists id, entryId c = Some id /\ is_module_id id).
Proof.
  split.
  - intros source parentPath r (ast & ast' & Hp & Ht & _)%parse_Ok.
    apply traverse_appends in Ht. rewrite Ht. simpl.
    apply Forall_forall. intros x (y & -> & _)%list_elem_of_fmap.
    apply canonical_id_shape.
  - intros fuel c Hrun. split; [by eapply keys_have_module_shape|].
    apply run_Ok in Hrun as (c0 & Hb & ->).
    apply buildModule_entry in Hb as (He & _). simpl.
    eexists. split; [exact He|apply normalizePath_shape].
Qed.

(** X7. After a completed build the canonical id of every file reachable
    from the entry along the module-reference relation is a key of the module
    graph. *)
Theorem reachable_modules_are_keys
    (P : platform) (cfg : config) (fuel : nat) (c : compiler) (q : string) :
  run P cfg fuel = Ok c ->
  rtc (references P cfg) (entry_path P cfg) q ->
  module_id P q ∈ keys (modules c).
Proof.
  intros (c0 & Hb & ->)%run_Ok Hq. simpl.
  by eapply buildModule_reachable_keys.
Qed.

(** X8. After a completed build the module graph holds nothing else: each
    key is the canonical id of a file reachable from the entry, and its value
    is the rewritten source that [parse] returned for that file. *)
Theorem keys_are_reachable_modules
    (P : platform) (cfg : config) (fuel : nat) (c : compiler) (k v : string) :
  run P cfg fuel = Ok c ->
  (k, v) ∈ modules c ->
  exists q r,
    rtc (references P cfg) (entry_path P cfg) q /\
    k = module_id P q /\
    rewritten P cfg q = Ok r /\
    v = sourceCode r.
Proof.
  intros (c0 & Hb & ->)%run_Ok Hin. simpl in Hin. revert k v Hin.
  eapply (buildModule_graph_invariant P cfg
            (fun o => forall k v, (k, v) ∈ o ->
               exists q r, rtc (references P cfg) (entry_path P cfg) q /\
                           k = module_id P q /\ rewritten P cfg q = Ok r /\
                           v = sourceCode r));
    [|apply rtc_refl| |exact Hb].
  - intros q r o Hq Hr Ho k v [H|H]%elem_of_set; [|by apply Ho].
    injection H as -> ->. by exists q, r.
  - intros k v H. by apply elem_of_nil in H.
Qed.

(** X10. The module graph is built (the recursion of [buildModule] from
    the entry returns, with enough call-stack depth) exactly on the inputs that
    have no circular reference chain reachable from the entry and whose
    reachable modules can all be read, transformed and parsed.  The run
    completes exactly when, in addition, the file-system calls of [emitFile]
    return: the removal of the output directory if it exists, its creation,
    and the write of the bundle. *)
Theorem graph_is_built_iff_acyclic_and_loadable (P : platform) (cfg : config) :
  ((exists c0, builds_graph P cfg c0) <-> acyclic P cfg /\ loadable P cfg) /\
  (completes P cfg <->
   exists c0,
     builds_graph P cfg c0 /\
     (existsSync P (output_path (output cfg)) = true ->
      rmSync P (output_path (output cfg)) = None) /\
     mkdirSync P (output_path (output cfg)) = None /\
     writeFileSync P (main P cfg)
       (template (default "undefined" (entryId c0)) (gTemplate c0)) = None).
Proof.
  split; split.
  - intros (c0 & fuel & Hb). split.
    + intros p Hp Htc.
      destruct (circular_chains P cfg (ex_intro _ p (conj Hp Htc)) fuel) as (l & Hl & Hn).
      pose proof (Ok_bounded P cfg fuel _ _ _ _ Hb l Hl). lia.
    + intros q Hq. by eapply buildModule_Ok_loadable.
  - intros [Hac Hload].
    set (fuel := S (size (dom (files P)))).
    pose proof (bounded_not_Diverge P cfg fuel (entry_path P cfg) true constructor) as Hnd.
    pose proof (loadable_no_Throw P cfg fuel (entry_path P cfg) true constructor Hload)
      as Hno.
    destruct (buildModule P cfg fuel (entry_path P cfg) true constructor) as [c0|e|] eqn:Hb.
    + exists c0, fuel. exact Hb.
    + by destruct (Hno e).
    + destruct Hnd; [|done]. intros l Hl.
      apply acyclic_chain_length in Hl; [unfold fuel; lia|done].
  - intros (fuel & c & H). rewrite run_eq in H. inv_bind H. exists a.
    split; [by exists fuel|]. apply emitFile_returns. by exists c.
  - intros (c0 & (fuel & Hb) & Hemit).
    apply emitFile_returns in Hemit as [c Hc].
    exists fuel, c. by rewrite run_eq, Hb.
Qed.

(** X11. The first module of the graph of a completed build is the entry,
    so the first factory of the bundle is the one of the entry, with the loader
    as its third parameter. *)
Theorem entry_module_comes_first
    (P : platform) (cfg : config) (fuel : nat) (c : compiler) :
  run P cfg fuel = Ok c ->
  exists src rest,
    modules c = (module_id P (entry_path P cfg), src) :: rest /\
    head (gTemplate_arr c) =
      Some (factory (module_id P (entry_path P cfg)) "__webpack_require__" src).
Proof.
  intros (c0 & Hb & ->)%run_Ok.
  pose proof (buildModule_entry P cfg _ _ _ _ Hb) as (He & _).
  assert (Hm : exists src rest, modules c0 = (module_id P (entry_path P cfg), src) :: rest).
  { destruct fuel as [|n]; [done|].
    rewrite buildModule_S in Hb. inv_bind Hb. inv_bind Hb.
    eapply (forEach_invariant
              (fun c1 : compiler =>
                 exists src rest,
                   modules c1 = (module_id P (entry_path P cfg), src) :: rest));
      [| |exact Hb].
    - intros dep s s' Hs Hd.
      eapply (buildModule_invariant P cfg
                (fun c1 : compiler =>
                   exists src rest,
                     modules c1 = (module_id P (entry_path P cfg), src) :: rest));
        [|exact Hs|exact Hd].
      intros k v c1 (src & rest & Hc1). simpl. rewrite Hc1. apply first_set.
    - simpl. by eexists _, _. }
  destruct Hm as (src & rest & Hm). exists src, rest. simpl. split; [done|].
  unfold gTemplate_arr, keys. simpl. rewrite Hm, He. simpl.
  rewrite String.eqb_refl. by rewrite bool_decide_eq_true_2.
Qed.

(** X12. The build itself stores no asset, and [run] stores exactly one:
    the bundle, under the path made of the output directory and file name. *)
Theorem run_emits_one_asset
    (P : platform) (cfg : config) (fuel : nat) (c : compiler) :
  run P cfg fuel = Ok c ->
  assets c =
    [(main P cfg, template (module_id P (entry_path P cfg)) (gTemplate c))].
Proof.
  intros (c0 & Hb & ->)%run_Ok.
  pose proof (buildModule_entry P cfg _ _ _ _ Hb) as (He & _).
  assert (Ha : assets c0 = []).
  { destruct fuel as [|n]; [done|].
    rewrite buildModule_S in Hb. inv_bind Hb. inv_bind Hb.
    eapply (forEach_invariant (fun c1 : compiler => assets c1 = [])); [| |exact Hb].
    - intros dep s s' Hs Hd.
      by eapply (buildModule_invariant P cfg (fun c1 : compiler => assets c1 = []));
        [|exact Hs|exact Hd].
    - done. }
  simpl. rewrite Ha, He. done.
Qed.

(** ** Errors of the build, and the bundle at run time *)





(** ** The further properties on the demo projects *)

(** Two matching rules on lib/b.js of [diamond], and a third that does not
    match and names a loader that is not installed. *)
Lemma readSource_runs_chains_last_to_first_witness :
  readSource Demo.diamond (Demo.settings "src/index.js" (Some Demo.two_rules))
    "/proj/src/lib/b.js" =
    Ok (transformed Demo.diamond
          [ {| test := Demo.ends_with_js; use := ["banner-loader"; "behead-loader"] |};
            {| test := Demo.ends_with_js; use := ["banner-loader"] |};
            {| test := fun _ => false; use := ["missing-loader"] |} ]
          "/proj/src/lib/b.js" "exports.b = 'b';") /\
  transformed Demo.diamond
    [ {| test := Demo.ends_with_js; use := ["banner-loader"; "behead-loader"] |};
      {| test := Demo.ends_with_js; use := ["banner-loader"] |};
      {| test := fun _ => false; use := ["missing-loader"] |} ]
    "/proj/src/lib/b.js" "exports.b = 'b';" =
  Demo.banner (Demo.banner (Demo.behead "exports.b = 'b';")).
Proof.
  split; [|reflexivity].
  apply (proj2 (readSource_runs_chains_last_to_first Demo.diamond
                  (Demo.settings "src/index.js" (Some Demo.two_rules))
                  "/proj/src/lib/b.js" "exports.b = 'b';" eq_refl)
               Demo.two_rules _ eq_refl eq_refl).
  intros r Hr Ht. list_cases Hr; subst r.
  - split; [discriminate|]. intros name Hn. list_cases Hn; subst name; by eexists.
  - split; [discriminate|]. intros name Hn. list_cases Hn; subst name; by eexists.
  - discriminate Ht.
Defined.

(** A chain that names a loader that is not installed: the loader after it
    in the chain runs, then the lookup fails. *)
Lemma readSource_failures_witness :
  readSource Demo.diamond (Demo.settings "src/index.js" (Some Demo.missing_loader))
    "/proj/src/lib/b.js" = Throw (MODULE_NOT_FOUND "missing-loader") /\
  exists name,
    name ∈ ["missing-loader"; "banner-loader"] /\
    require Demo.diamond name = None /\
    MODULE_NOT_FOUND "missing-loader" = MODULE_NOT_FOUND name.
Proof.
  assert (H : readSource Demo.diamond
                (Demo.settings "src/index.js" (Some Demo.missing_loader))
                "/proj/src/lib/b.js" = Throw (MODULE_NOT_FOUND "missing-loader"))
    by (vm_compute; reflexivity).
  split; [exact H|].
  destruct (readSource_failures _ _ _ _ H) as [[Hf _]|(_ & m & Hm & Hc)].
  - vm_compute in Hf. discriminate Hf.
  - injection Hm as <-. destruct Hc as [[Hr _]|(rs & r & Hrs & Hr & _ & Hc)].
    + discriminate Hr.
    + injection Hrs as <-. list_cases Hr. subst r.
      destruct Hc as [[Hu _]|Hc]; [discriminate Hu|exact Hc].
Defined.

(** The entry of [diamond], rewritten. *)
Lemma rewritten_source_has_no_require_witness :
  exists r ast',
    parse Demo.diamond "require('./a'); require('./lib/b');" "./src" = Ok r /\
    sourceCode r = generator Demo.diamond ast' /\
    no_require ast' = true /\
    traverse Demo.diamond "./src/lib" ast' [] = Ok (ast', []).
Proof.
  assert (H : exists r,
             parse Demo.diamond "require('./a'); require('./lib/b');" "./src" = Ok r)
    by (eexists; vm_compute; reflexivity).
  destruct H as [r H].
  destruct (rewritten_source_has_no_require _ _ _ _ H) as (ast' & Hs & Hn & Ht).
  exists r, ast'. split; [exact H|]. split; [exact Hs|]. split; [exact Hn|apply Ht].
Defined.

(** The module lib/b.js of [diamond] has no call of require. *)
Lemma module_without_require_is_untouched_witness :
  parse Demo.diamond "exports.b = 'b';" "./src/lib" =
  Ok {| sourceCode := generator Demo.diamond (Demo.program [Demo.export "b" "b"]);
        dependencies := [] |}.
Proof.
  apply (module_without_require_is_untouched Demo.diamond); reflexivity.
Defined.

(** The ids of [diamond]. *)
Lemma ids_start_with_dot_slash_witness :
  run Demo.diamond (Demo.settings "src/index.js" None) 3 = Ok Demo.diamond_graph /\
  Forall is_module_id (keys (modules Demo.diamond_graph)) /\
  exists id, entryId Demo.diamond_graph = Some id /\ is_module_id id.
Proof.
  assert (H : run Demo.diamond (Demo.settings "src/index.js" None) 3
              = Ok Demo.diamond_graph) by (vm_compute; reflexivity).
  split; [exact H|].
  exact (proj2 (ids_start_with_dot_slash Demo.diamond (Demo.settings "src/index.js" None))
               3 Demo.diamond_graph H).
Defined.

(** lib/b.js is reached from the entry of [diamond] through a.js. *)
Lemma reachable_modules_are_keys_witness :
  "./src/lib/b.js" ∈ keys (modules Demo.diamond_graph).
Proof.
  apply (reachable_modules_are_keys Demo.diamond (Demo.settings "src/index.js" None)
           3 Demo.diamond_graph "/proj/src/lib/b.js").
  - vm_compute; reflexivity.
  - eapply rtc_l; [|apply rtc_once].
    + exists ["/proj/src/a.js"; "/proj/src/lib/b.js"].
      split; [vm_compute; reflexivity|]. left.
    + exists ["/proj/src/lib/b.js"; "/proj/src/lib/b.js"].
      split; [vm_compute; reflexivity|]. left.
Defined.

(** The factory text of a.js in the graph of [diamond] is the rewritten
    source of a file reachable from the entry. *)
Lemma keys_are_reachable_modules_witness :
  exists v q r,
    ("./src/a.js", v) ∈ modules Demo.diamond_graph /\
    rtc (references Demo.diamond (Demo.settings "src/index.js" None))
        (entry_path Demo.diamond (Demo.settings "src/index.js" None)) q /\
    "./src/a.js" = module_id Demo.diamond q /\
    rewritten Demo.diamond (Demo.settings "src/index.js" None) q = Ok r /\
    v = sourceCode r.
Proof.
  assert (Hk : "./src/a.js" ∈ keys (modules Demo.diamond_graph))
    by (vm_compute; right; left).
  apply list_elem_of_fmap in Hk as ([k v] & Hk & Hin). simpl in Hk. subst k.
  destruct (keys_are_reachable_modules Demo.diamond (Demo.settings "src/index.js" None)
              3 Demo.diamond_graph "./src/a.js" v) as (q & r & H);
    [vm_compute; reflexivity|exact Hin|].
  exists v, q, r. split; [exact Hin|exact H].
Defined.

(** Both dependency ids of the entry of [diamond] are computed back from
    their paths, and are keys. *)
Lemma dependency_is_key_witness :
  exists r,
    parse Demo.diamond "require('./a'); require('./lib/b');" "./src" = Ok r /\
    dependencies r = ["./src/a.js"; "./src/lib/b.js"] /\
    "./src/lib/b.js" ∈ keys (modules Demo.diamond_graph).
Proof.
  eexists. split; [vm_compute; reflexivity|]. split; [reflexivity|].
  eapply (dependency_is_key Demo.diamond (Demo.settings "src/index.js" None)
            3 Demo.diamond_graph "/proj/src/index.js"
            "require('./a'); require('./lib/b');" "./src/lib/b.js").
  - vm_compute; reflexivity.
  - apply rtc_refl.
  - vm_compute; reflexivity.
  - vm_compute; reflexivity.
  - right; left.
  - vm_compute; reflexivity.
Defined.

(** The graph of [diamond] is built, so the project has no circular chain
    and every reachable module loads; and its run completes, so the calls that
    write the bundle returned. *)
Lemma graph_is_built_iff_acyclic_and_loadable_witness :
  builds_graph Demo.diamond (Demo.settings "src/index.js" None)
    {| entryId := entryId Demo.diamond_graph; modules := modules Demo.diamond_graph;
       assets := []; entryId_writes := 1 |} /\
  acyclic Demo.diamond (Demo.settings "src/index.js" None) /\
  loadable Demo.diamond (Demo.settings "src/index.js" None) /\
  completes Demo.diamond (Demo.settings "src/index.js" None) /\
  exists c0,
    builds_graph Demo.diamond (Demo.settings "src/index.js" None) c0 /\
    writeFileSync Demo.diamond "/proj/dist/bundle.js"
      (template (default "undefined" (entryId c0)) (gTemplate c0)) = None.
Proof.
  assert (Hb : builds_graph Demo.diamond (Demo.settings "src/index.js" None)
                 {| entryId := entryId Demo.diamond_graph;
                    modules := modules Demo.diamond_graph;
                    assets := []; entryId_writes := 1 |})
    by (exists 3; vm_compute; reflexivity).
  assert (Hc : completes Demo.diamond (Demo.settings "src/index.js" None))
    by (exists 3; eexists; vm_compute; reflexivity).
  destruct (graph_is_built_iff_acyclic_and_loadable Demo.diamond
              (Demo.settings "src/index.js" None)) as [H1 H2].
  destruct (proj1 H1 (ex_intro _ _ Hb)) as [Hac Hload].
  destruct (proj1 H2 Hc) as (c0 & Hb0 & _ & _ & Hw).
  split; [exact Hb|]. split; [exact Hac|]. split; [exact Hload|]. split; [exact Hc|].
  exists c0. split; [exact Hb0|exact Hw].
Defined.

(** The graph of [diamond] starts with its entry. *)
Lemma entry_module_comes_first_witness :
  exists src rest,
    modules Demo.diamond_graph = ("./src/index.js", src) :: rest /\
    head (gTemplate_arr Demo.diamond_graph) =
      Some (factory "./src/index.js" "__webpack_require__" src).
Proof.
  apply (entry_module_comes_first Demo.diamond (Demo.settings "src/index.js" None)
           3 Demo.diamond_graph).
  vm_compute; reflexivity.
Defined.

(** The one asset of the build of [diamond]. *)
Lemma run_emits_one_asset_witness :
  assets Demo.diamond_graph =
  [("/proj/dist/bundle.js", template "./src/index.js" (gTemplate Demo.diamond_graph))].
Proof.
  apply (run_emits_one_asset Demo.diamond (Demo.settings "src/index.js" None)
           3 Demo.diamond_graph).
  vm_compute; reflexivity.
Defined.

(** A factory that sets its exports to 5 and throws: the module stays in
    the cache, not marked loaded, and the next call returns 5. *)
Lemma failed_module_stays_cached_witness :
  exists s' m,
    Runtime.__webpack_require__ nat 0 1
      {[ "./t.js" := {| Runtime.binds_loader := false;
                        Runtime.body := Runtime.Assign (fun _ => 5) Runtime.Raise |} ]}
      1 "./t.js" (Runtime.initial nat) = Runtime.Thrown s' /\
    Runtime.installedModules nat s' !! "./t.js" = Some m /\
    Runtime.l nat m = false /\
    Runtime.exports nat m = 5 /\
    Runtime.__webpack_require__ nat 0 1
      {[ "./t.js" := {| Runtime.binds_loader := false;
                        Runtime.body := Runtime.Assign (fun _ => 5) Runtime.Raise |} ]}
      1 "./t.js" s' = Runtime.Returned 5 s'.
Proof.
  assert (H : exists s',
             Runtime.__webpack_require__ nat 0 1
               {[ "./t.js" := {| Runtime.binds_loader := false;
                                 Runtime.body :=
                                   Runtime.Assign (fun _ => 5) Runtime.Raise |} ]}
               1 "./t.js" (Runtime.initial nat) = Runtime.Thrown s')
    by (eexists; vm_compute; reflexivity).
  destruct H as [s' H].
  destruct (RuntimeFacts.failed_module_stays_cached nat 0 1 _ 1 "./t.js" (Runtime.initial nat) s'
              eq_refl H) as (m & Hm & Hl & _ & Hlater).
  assert (He : Runtime.exports nat m = 5).
  { vm_compute in H. injection H as <-. vm_compute in Hm. by injection Hm as <-. }
  exists s', m. split; [exact H|]. split; [exact Hm|]. split; [exact Hl|].
  split; [exact He|]. specialize (Hlater 0). rewrite He in Hlater. exact Hlater.
Defined.


